(** * Simon Says on the MSP430: a shallow embedding of [simon.c]

    The game is one infinite loop over a state tag.  Its handlers talk to
    four devices: the LCD, the LED port [P1OUT], the capacitive touch
    pads and the C library's [rand].  The embedding threads a [World]
    holding these devices through every function, in a small monad whose
    outcome also records the two ways a call can fail to return a value:
    an array accessed outside its bounds, and a polling loop that is
    still waiting when the recorded input ends. *)

From Stdlib Require Import ZArith String Lia.
From stdpp Require Import base tactics option list.

Local Open Scope Z_scope.

(** ** Constants of the source *)

(** Bit masks of the vendor header [msp430.h]. *)
Definition BIT1 : Z := 2.
Definition BIT2 : Z := 4.
Definition BIT3 : Z := 8.
Definition BIT4 : Z := 16.
Definition BIT5 : Z := 32.

(* LED definitions *)
Definition NUM_KEYS : Z := 5.
Definition LED4 : Z := BIT5.
Definition LED5 : Z := BIT4.
Definition LED6 : Z := BIT3.
Definition LED7 : Z := BIT2.
Definition LED8 : Z := BIT1.

(* Simon game state definition *)
Definition WELCOME : Z := 0.
Definition PLAYSEQ : Z := 1.
Definition CHECSEQ : Z := 2.
Definition ERROR : Z := 3.
Definition CONGRATS : Z := 4.

(* Integers used to represent buttons *)
Definition NULL_BUTTON : Z := -1.
Definition X : Z := 0.
Definition Square : Z := 1.
Definition Octogon : Z := 2.
Definition Triangle : Z := 3.
Definition Circle : Z := 4.

(* Maximum Sequence Length *)
Definition MAX_SEQ_LENGTH : Z := 64.

(** The touch elements.  [TI_CAPT_Buttons] returns a pointer to the
    element that is touched, or the null pointer; [OTHER] stands for any
    element that is not one of the five pads of [address_list]. *)
Inductive Element : Type :=
| PAD1 | PAD2 | PAD3 | PAD4 | PAD5
| OTHER (id : nat).

#[global] Instance Element_eq_dec : EqDecision Element.
Proof. solve_decision. Defined.

Definition address_list : list Element := [PAD1; PAD2; PAD3; PAD4; PAD5].

Definition ledMask : list Z := [LED8; LED7; LED6; LED5; LED4].

(** ** The devices *)

Inductive event : Type :=
| EvClear                                   (* GrClearDisplay *)
| EvDraw (text : string) (x y : Z)          (* GrStringDrawCentered *)
| EvFlush                                   (* GrFlush *)
| EvP1OUT (v : Z)                           (* a store to P1OUT *)
| EvDelay (numLoops : Z).                   (* swDelay *)

Record World : Type := mkWorld {
  P1OUT : Z;                        (* the LED port, eight bits *)
  trace : list event;               (* what the devices were told, oldest first *)
  rand_src : nat -> Z;              (* the k-th value rand() returns *)
  rand_calls : nat;                 (* how many values were drawn *)
  polls : list (option Element)     (* what the next calls of TI_CAPT_Buttons return *)
}.

Inductive outcome (A : Type) : Type :=
| Done (a : A)        (* the call returns *)
| Pending             (* still polling when the recorded touches end *)
| Undefined.          (* an array was accessed outside its bounds *)
Arguments Done {A} a.
Arguments Pending {A}.
Arguments Undefined {A}.

Definition M (A : Type) : Type := World -> outcome (A * World).

Definition ret {A} (a : A) : M A := fun w => Done (a, w).

Definition bind {A B} (c : M A) (k : A -> M B) : M B :=
  fun w => match c w with
           | Done (a, w') => k a w'
           | Pending => Pending
           | Undefined => Undefined
           end.

Declare Scope simon_scope.
Delimit Scope simon_scope with simon.
Notation "'let*' x ':=' c 'in' k" := (bind c (fun x => k))
  (at level 10, x pattern, c at level 100, k at level 200) : simon_scope.
Notation "c '>>' k" := (bind c (fun _ => k))
  (at level 90, right associativity) : simon_scope.
Local Open Scope simon_scope.

Definition emit (e : event) : M unit :=
  fun w => Done (tt, mkWorld (P1OUT w) (trace w ++ [e]) (rand_src w) (rand_calls w) (polls w)).

Definition GrClearDisplay : M unit := emit EvClear.
Definition GrStringDrawCentered (text : string) (x y : Z) : M unit := emit (EvDraw text x y).
Definition GrFlush : M unit := emit EvFlush.

(** [swDelay] burns [numLoops] rounds of 50000 decrements; the model
    records the request. *)
Definition swDelay (numLoops : Z) : M unit := emit (EvDelay numLoops).

Definition uint8 (v : Z) : Z := v mod 256.

Definition read_P1OUT : M Z := fun w => Done (P1OUT w, w).

Definition write_P1OUT (v : Z) : M unit :=
  fun w => Done (tt, mkWorld (uint8 v) (trace w ++ [EvP1OUT (uint8 v)])
                             (rand_src w) (rand_calls w) (polls w)).

Definition rand : M Z :=
  fun w => Done (rand_src w (rand_calls w),
                 mkWorld (P1OUT w) (trace w) (rand_src w) (S (rand_calls w)) (polls w)).

Definition TI_CAPT_Buttons : M (option Element) :=
  fun w => match polls w with
           | [] => Pending
           | p :: ps => Done (p, mkWorld (P1OUT w) (trace w) (rand_src w) (rand_calls w) ps)
           end.

(** Arrays: a read or a write outside the bounds is undefined. *)
Definition array_get {A} (a : list A) (i : Z) : M A :=
  fun w => if 0 <=? i
           then match a !! Z.to_nat i with
                | Some v => Done (v, w)
                | None => Undefined
                end
           else Undefined.

Definition array_set {A} (a : list A) (i : Z) (v : A) : M (list A) :=
  fun w => if (0 <=? i) && (i <? Z.of_nat (length a))
           then Done (<[Z.to_nat i := v]> a, w)
           else Undefined.

Definition LED_BITS : Z := Z.lor BIT5 (Z.lor BIT4 (Z.lor BIT3 (Z.lor BIT2 BIT1))).

(* P1OUT = P1OUT & ~(BIT5 | BIT4 | BIT3 | BIT2 | BIT1); *)
Definition ledsOff : M unit :=
  let* p := read_P1OUT in write_P1OUT (Z.land p (Z.lnot LED_BITS)).

(** ** The functions of [simon.c] *)

(** Of the set-up, only the stores to [P1OUT] and to the LCD are kept:
    the watchdog, the port direction and the touch baseline act on none
    of the modelled devices. *)
Definition configTouchPadLEDs : M unit := ledsOff.

Definition configDisplay : M unit := GrClearDisplay >> GrFlush.

Definition initSys : M unit := configTouchPadLEDs >> configDisplay.

Definition dispWelcome : M unit :=
  GrClearDisplay >>
  GrStringDrawCentered "Welcome to" 51 8 >>
  GrStringDrawCentered "Simon Says" 51 24 >>
  GrStringDrawCentered "Press X" 51 40 >>
  GrStringDrawCentered "to Start" 51 56 >>
  GrFlush.

(** The loop [for (i = 0; i < NUM_KEYS; i++)] of [getButton], with [n]
    iterations left. *)
Fixpoint scanKeys (n : nat) (i : Z) (keypressed : Element) (buttonPressed : Z) : M Z :=
  match n with
  | O => ret buttonPressed
  | S n' =>
      let* a := array_get address_list i in
      let* buttonPressed :=
        (if bool_decide (keypressed = a)
         then let* mask := array_get ledMask i in
              let* p := read_P1OUT in
              write_P1OUT (Z.lor p mask) >>
              swDelay 1 >>
              ret i
         else ret buttonPressed) in
      scanKeys n' (i + 1) keypressed buttonPressed
  end.

(** The [do ... while (buttonPressed == NULL_BUTTON)] loop.  Every
    iteration takes one poll, so [fuel] above the number of recorded
    polls is never used up. *)
Fixpoint getButton_loop (fuel : nat) (buttonPressed : Z) : M Z :=
  match fuel with
  | O => fun _ => Pending
  | S fuel' =>
      ledsOff >>
      let* keypressed := TI_CAPT_Buttons in
      let* buttonPressed :=
        match keypressed with
        | Some k => scanKeys (Z.to_nat NUM_KEYS) 0 k buttonPressed
        | None => ret buttonPressed
        end in
      if buttonPressed =? NULL_BUTTON
      then getButton_loop fuel' buttonPressed
      else ret buttonPressed
  end.

Definition getButton : M Z :=
  fun w => getButton_loop (S (length (polls w))) NULL_BUTTON w.

Definition countDown (state : Z) : M Z :=
  GrClearDisplay >>
  GrStringDrawCentered "3" 51 32 >> GrFlush >> swDelay 3 >>
  GrClearDisplay >>
  GrStringDrawCentered "2" 51 32 >> GrFlush >> swDelay 3 >>
  GrClearDisplay >>
  GrStringDrawCentered "1" 51 32 >> GrFlush >> swDelay 3 >>
  GrClearDisplay >>
  GrStringDrawCentered "Go!" 51 32 >> GrFlush >> swDelay 3 >>
  ret PLAYSEQ.

Definition getSpeed (difficulty : Z) : Z :=
  if difficulty <? 13 then 2
  else if (13 <=? difficulty) && (difficulty <? 26) then 1
  else 0.

(** The playback loop [for (playLED = 0; playLED <= level; playLED++)],
    with [n] iterations left. *)
Fixpoint playLoop (n : nat) (playLED : Z) (sequence : list Z) (level : Z) : M unit :=
  match n with
  | O => ret tt
  | S n' =>
      let* s := array_get sequence playLED in
      let* mask := array_get ledMask s in
      let* p := read_P1OUT in
      write_P1OUT (Z.lor p mask) >>
      swDelay (getSpeed level) >>
      let* s := array_get sequence playLED in
      let* mask := array_get ledMask s in
      let* p := read_P1OUT in
      write_P1OUT (Z.land p (Z.lnot mask)) >>
      swDelay (getSpeed level) >>
      playLoop n' (playLED + 1) sequence level
  end.

(** [playSequence], [checkSequence] and the message functions receive
    pointers; the model takes the pointed values and returns their final
    contents. *)
Definition playSequence (sequence : list Z) (diff state : Z) : M (list Z * Z * Z) :=
  ledsOff >>
  let level := diff in
  GrClearDisplay >>
  GrStringDrawCentered "Playing" 51 24 >>
  GrStringDrawCentered "Sequence!" 51 40 >>
  GrFlush >>
  let* r := rand in
  let randPad := Z.rem r NUM_KEYS in
  let* sequence := array_set sequence level randPad in
  playLoop (Z.to_nat (level + 1)) 0 sequence level >>
  ret (sequence, diff, CHECSEQ).

Definition displayButton (button : Z) : M unit :=
  (if button =? X then GrStringDrawCentered "1" 10 40
   else if button =? Square then GrStringDrawCentered "2" 30 40
   else if button =? Octogon then GrStringDrawCentered "3" 50 40
   else if button =? Triangle then GrStringDrawCentered "4" 70 40
   else if button =? Circle then GrStringDrawCentered "5" 90 40
   else ret tt) >>
  GrFlush.

(** The loop [for (currentButton = 0; currentButton <= level; ++currentButton)]
    with its [break]; the result is the final [isSeqCorrect]. *)
Fixpoint checkLoop (n : nat) (currentButton : Z) (sequence : list Z) (isSeqCorrect : Z) : M Z :=
  match n with
  | O => ret isSeqCorrect
  | S n' =>
      GrStringDrawCentered "Checking" 51 8 >>
      GrStringDrawCentered "Sequence!" 51 24 >>
      GrFlush >>
      let* button := getButton in
      displayButton button >>
      GrClearDisplay >>
      GrStringDrawCentered "Checking" 51 8 >>
      GrStringDrawCentered "Sequence!" 51 24 >>
      GrFlush >>
      let* s := array_get sequence currentButton in
      if negb (button =? s)
      then ret 0
      else checkLoop n' (currentButton + 1) sequence isSeqCorrect
  end.

(** [++level] cannot overflow: it runs only under [level < MAX_SEQ_LENGTH]. *)
Definition checkSequence (sequence : list Z) (diff state : Z) : M (list Z * Z * Z) :=
  let level := diff in
  GrClearDisplay >>
  let* isSeqCorrect := checkLoop (Z.to_nat (level + 1)) 0 sequence 1 in
  if negb (isSeqCorrect =? 0)
  then GrClearDisplay >>
       GrStringDrawCentered "GOOD JOB!" 51 32 >>
       GrFlush >>
       if level <? MAX_SEQ_LENGTH
       then ret (sequence, level + 1, PLAYSEQ)
       else ret (sequence, diff, CONGRATS)
  else ret (sequence, diff, ERROR).

Definition errorMsg (state : Z) : M Z :=
  GrClearDisplay >>
  GrStringDrawCentered "You Lost!" 51 8 >>
  GrStringDrawCentered "Sorry," 51 24 >>
  GrStringDrawCentered "Thanks for" 51 40 >>
  GrStringDrawCentered "Playing!" 51 56 >>
  GrFlush >>
  swDelay 1 >>
  ret WELCOME.

Definition congratsMsg (state : Z) : M Z :=
  GrClearDisplay >>
  GrStringDrawCentered "CONGRATS,!" 51 8 >>
  GrStringDrawCentered "YOU WON!" 51 24 >>
  GrStringDrawCentered "Thanks for" 51 40 >>
  GrStringDrawCentered "Playing!" 51 56 >>
  GrFlush >>
  swDelay 1 >>
  ret WELCOME.

(** ** [main] *)

Record Locals : Type := mkLocals {
  state : Z;
  button : Z;
  givenSeq : list Z;
  diff : Z
}.

Definition main_init : Locals :=
  mkLocals WELCOME NULL_BUTTON (replicate (Z.to_nat MAX_SEQ_LENGTH) 0) 0.

(** [do { button = getButton(); } while ((button == NULL_BUTTON) || (button != X));] *)
Fixpoint welcome_loop (fuel : nat) : M Z :=
  match fuel with
  | O => fun _ => Pending
  | S fuel' =>
      let* button := getButton in
      if (button =? NULL_BUTTON) || negb (button =? X)
      then welcome_loop fuel'
      else ret button
  end.

Definition welcome_wait : M Z :=
  fun w => welcome_loop (S (length (polls w))) w.

(** One turn of [while (1) { switch (state) ... }]. *)
Definition main_iter (l : Locals) : M Locals :=
  if state l =? WELCOME then
    dispWelcome >>
    let* b := welcome_wait in
    let* st := countDown (state l) in
    ret (mkLocals st b (givenSeq l) (diff l))
  else if state l =? PLAYSEQ then
    let* (sq, d, st) := playSequence (givenSeq l) (diff l) (state l) in
    ret (mkLocals st (button l) sq d)
  else if state l =? CHECSEQ then
    let* (sq, d, st) := checkSequence (givenSeq l) (diff l) (state l) in
    ret (mkLocals st (button l) sq d)
  else if state l =? ERROR then
    let* st := errorMsg (state l) in
    ret (mkLocals st (button l) (givenSeq l) (diff l))
  else if state l =? CONGRATS then
    let* st := congratsMsg (state l) in
    ret (mkLocals st (button l) (givenSeq l) (diff l))
  else ret l.

(** [n] turns of the loop. *)
Fixpoint main_loop (n : nat) (l : Locals) : M Locals :=
  match n with
  | O => ret l
  | S n' => let* l' := main_iter l in main_loop n' l'
  end.

Definition main (n : nat) : M Locals := initSys >> main_loop n main_init.

(** * The vocabulary of the properties *)

(** What a call leaves alone: the random source and the pending polls. *)
Definition same_inputs (w w' : World) : Prop :=
  rand_src w' = rand_src w /\ rand_calls w' = rand_calls w /\ polls w' = polls w.

(** The policy in the words of the specification, and the number of
    delay loops each tier stands for. *)
Inductive SpeedTier : Type := Slow | Medium | Fast.

Definition tier_delay (t : SpeedTier) : Z :=
  match t with Slow => 2 | Medium => 1 | Fast => 0 end.

Definition speed_for (d : Z) : SpeedTier :=
  if d <? 13 then Slow else if d <? 26 then Medium else Fast.

(** The index of an element in [address_list], if it is one of the pads. *)
Definition pad_index (e : Element) : option Z :=
  match e with
  | PAD1 => Some 0 | PAD2 => Some 1 | PAD3 => Some 2
  | PAD4 => Some 3 | PAD5 => Some 4
  | OTHER _ => None
  end.

Definition poll_button (p : option Element) : option Z :=
  match p with Some e => pad_index e | None => None end.

(** The first recognised touch of a poll history and the polls after it. *)
Fixpoint next_press (ps : list (option Element)) : option (Z * list (option Element)) :=
  match ps with
  | [] => None
  | p :: ps' =>
      match poll_button p with
      | Some b => Some (b, ps')
      | None => next_press ps'
      end
  end.

(** All recognised touches of a poll history, in order. *)
Fixpoint presses (ps : list (option Element)) : list Z :=
  match ps with
  | [] => []
  | p :: ps' =>
      match poll_button p with
      | Some b => b :: presses ps'
      | None => presses ps'
      end
  end.

(** The polls left after the first [n] recognised touches. *)
Fixpoint drop_presses (n : nat) (ps : list (option Element)) : list (option Element) :=
  match n with
  | O => ps
  | S n' =>
      match next_press ps with
      | Some (_, rest) => drop_presses n' rest
      | None => []
      end
  end.

(** A world at power-on whose source returns 0, 1, 2, ... and whose
    pads will be polled as [ps]. *)
Definition quiet_world (ps : list (option Element)) : World :=
  mkWorld 0 [] (fun k => Z.of_nat k) 0 ps.

(** The polls left once the start pad has been seen. *)
Fixpoint after_start (ps : list (option Element)) : option (list (option Element)) :=
  match ps with
  | [] => None
  | p :: ps' => if bool_decide (p = Some PAD1) then Some ps' else after_start ps'
  end.

(** The five state tags. *)
Definition valid_state (st : Z) : Prop :=
  st = WELCOME \/ st = PLAYSEQ \/ st = CHECSEQ \/ st = ERROR \/ st = CONGRATS.

(** The locals after a round lost at difficulty 2. *)
Definition lost_round : Locals :=
  mkLocals ERROR X ([2; 4; 1] ++ replicate 61 0) 2.

(** The reset the specification asks of the two message states. *)
Definition message_resets_game : Prop :=
  forall l w l' w',
    state l = ERROR \/ state l = CONGRATS ->
    main_iter l w = Done (l', w') ->
    diff l' = 0 /\ givenSeq l' = givenSeq main_init.

(** The mask of symbol [s] in [ledMask]. *)
Definition led_of (s : Z) : Z := nth (Z.to_nat s) ledMask 0.

(** What one symbol of the playback tells the devices. *)
Definition blink (base speed s : Z) : list event :=
  [EvP1OUT (uint8 (Z.lor base (led_of s))); EvDelay speed; EvP1OUT base; EvDelay speed].

(** [n] rounds in a row, each a PLAYSEQ turn followed by a CHECSEQ turn
    in which no comparison failed. *)
Inductive correct_rounds : nat -> Locals -> World -> Locals -> World -> Prop :=
| rounds_O l w : correct_rounds 0 l w l w
| rounds_S n l w l1 w1 l2 w2 l3 w3 :
    correct_rounds n l w l1 w1 ->
    state l1 = PLAYSEQ ->
    main_iter l1 w1 = Done (l2, w2) ->
    main_iter l2 w2 = Done (l3, w3) ->
    state l3 <> ERROR ->
    correct_rounds (S n) l w l3 w3.

(** The symbols stored so far: the first [diff] elements of the array. *)
Definition stored (l : Locals) : list Z := take (Z.to_nat (diff l)) (givenSeq l).

(** The symbols given by [n] values of the source [rs] from its [rc]-th on. *)
Definition drawn_from (rs : nat -> Z) (rc : nat) (n : nat) : list Z :=
  map (fun k => Z.rem (rs (rc + k)%nat) NUM_KEYS) (seq 0 n).

(** The symbols that [n] draws from [rand] give, starting in world [w]. *)
Definition drawn (w : World) (n : nat) : list Z :=
  drawn_from (rand_src w) (rand_calls w) n.

(** The array has its 64 elements, each a valid symbol. *)
Definition array_ok (l : Locals) : Prop :=
  length (givenSeq l) = Z.to_nat MAX_SEQ_LENGTH /\
  Forall (fun s => 0 <= s < NUM_KEYS) (givenSeq l).

(** The locals when the first round starts, and a world in which the
    player wins two rounds. *)
Definition first_round : Locals :=
  mkLocals PLAYSEQ X (givenSeq main_init) 0.

Definition two_round_world : World :=
  mkWorld 0 [] (fun k => 7 * Z.of_nat k + 3) 0
          [Some PAD4; None; Some PAD4; Some PAD1].

(** The pad of a symbol, the touches that replay a list of symbols, and
    the touches that win the first [n] rounds against a given source. *)
Definition pad_of (s : Z) : Element := nth (Z.to_nat s) address_list PAD1.

Definition touches (ss : list Z) : list (option Element) :=
  map (fun s => Some (pad_of s)) ss.

Fixpoint winning_polls (rs : nat -> Z) (rc : nat) (n : nat) : list (option Element) :=
  match n with
  | O => []
  | S n' => winning_polls rs rc n' ++ touches (drawn_from rs rc n)
  end.

(** ** Vocabulary of the further properties *)

(** The port with its five LED bits cleared, as [ledsOff] stores it. *)
Definition leds_cleared (p : Z) : Z := uint8 (Z.land p (Z.lnot LED_BITS)).

(** The button whose label an LCD event draws, if it draws one. *)
Definition label_button (e : event) : option Z :=
  match e with
  | EvDraw text x y =>
      if String.eqb text "1" && (x =? 10) && (y =? 40) then Some X
      else if String.eqb text "2" && (x =? 30) && (y =? 40) then Some Square
      else if String.eqb text "3" && (x =? 50) && (y =? 40) then Some Octogon
      else if String.eqb text "4" && (x =? 70) && (y =? 40) then Some Triangle
      else if String.eqb text "5" && (x =? 90) && (y =? 40) then Some Circle
      else None
  | _ => None
  end.

(** The buttons whose labels a run of events draws, in order. *)
Definition shown (evs : list event) : list Z := omap label_button evs.

(** World [w'] continues the trace of [w] by events that draw the
    labels of [bs]. *)
Definition echoes (w w' : World) (bs : list Z) : Prop :=
  exists evs, trace w' = trace w ++ evs /\ shown evs = bs.

Definition uint16 (v : Z) : Z := v mod 65536.

(** The body of [swDelay], counting the decrements of [i].  Both
    counters are 16-bit unsigned; [numLoops] is a [char], converted to
    unsigned for the comparison with [j]. *)

(* while (i > 0) i--; *)
Fixpoint swDelay_inner (fuel : nat) (i : Z) (decrements : Z) : option Z :=
  match fuel with
  | O => None
  | S fuel' =>
      if 0 <? i
      then swDelay_inner fuel' (uint16 (i - 1)) (decrements + 1)
      else Some decrements
  end.

(* for (j = 0; j < numLoops; j++) { i = 50000; while (i > 0) i--; } *)
Fixpoint swDelay_outer (fuel : nat) (j numLoops : Z) (decrements : Z) : option Z :=
  match fuel with
  | O => None
  | S fuel' =>
      if j <? uint16 numLoops
      then match swDelay_inner (S (Z.to_nat 50000)) (uint16 50000) decrements with
           | Some decrements' => swDelay_outer fuel' (uint16 (j + 1)) numLoops decrements'
           | None => None
           end
      else Some decrements
  end.

(** The decrements one call of [swDelay] makes; the fuel is one more
    than the turns of the outer loop. *)
Definition swDelay_decrements (numLoops : Z) : option Z :=
  swDelay_outer (S (Z.to_nat (uint16 numLoops))) 0 numLoops 0.

(** [configTouchPadLEDs] on the three registers it stores to:
    [P1SEL], [P1DIR] and [P1OUT], in this order. *)
Definition configTouchPadLEDs_regs (sel dir out : Z) : Z * Z * Z :=
  (uint8 (Z.land sel (Z.lnot LED_BITS)),
   uint8 (Z.lor dir LED_BITS),
   uint8 (Z.land out (Z.lnot LED_BITS))).

(** What holds of the locals whenever a turn of the loop has returned. *)
Definition game_ok (l : Locals) : Prop :=
  length (givenSeq l) = Z.to_nat MAX_SEQ_LENGTH /\
  0 <= diff l <= MAX_SEQ_LENGTH /\
  valid_state (state l) /\
  state l <> CONGRATS /\
  (state l = CHECSEQ -> diff l < MAX_SEQ_LENGTH).

(** Straight-line device code is run by unfolding the primitives as soon
    as they meet a world. *)
Arguments bind {A B} c k w /.
Arguments ret {A} a w /.
Arguments emit e w /.
Arguments GrClearDisplay w /.
Arguments GrStringDrawCentered text x y w /.
Arguments GrFlush w /.
Arguments swDelay numLoops w /.
Arguments read_P1OUT w /.
Arguments write_P1OUT v w /.
Arguments ledsOff w /.
Arguments rand w /.

Ltac run :=
  cbn [bind ret emit GrClearDisplay GrStringDrawCentered GrFlush swDelay
       read_P1OUT write_P1OUT ledsOff rand
       P1OUT trace rand_src rand_calls polls].

Ltac run_in H :=
  cbn [bind ret emit GrClearDisplay GrStringDrawCentered GrFlush swDelay
       read_P1OUT write_P1OUT ledsOff rand
       P1OUT trace rand_src rand_calls polls] in H.

(** * Properties *)

(** ** Running the monad *)

Lemma bind_Done {A B} (c : M A) (k : A -> M B) w a w' :
  c w = Done (a, w') -> bind c k w = k a w'.
Proof. unfold bind. intros ->. reflexivity. Qed.

Lemma bind_Pending {A B} (c : M A) (k : A -> M B) w :
  c w = Pending -> bind c k w = Pending.
Proof. unfold bind. intros ->. reflexivity. Qed.

Lemma bind_Undefined {A B} (c : M A) (k : A -> M B) w :
  c w = Undefined -> bind c k w = Undefined.
Proof. unfold bind. intros ->. reflexivity. Qed.

Lemma bind_inv {A B} (c : M A) (k : A -> M B) w b w2 :
  bind c k w = Done (b, w2) ->
  exists a w1, c w = Done (a, w1) /\ k a w1 = Done (b, w2).
Proof.
  unfold bind. destruct (c w) as [[a w1]| |]; try discriminate.
  intros H. exists a, w1. split; [reflexivity | exact H].
Qed.

Lemma same_inputs_refl w : same_inputs w w.
Proof. repeat split. Qed.

Lemma same_inputs_trans w1 w2 w3 :
  same_inputs w1 w2 -> same_inputs w2 w3 -> same_inputs w1 w3.
Proof. unfold same_inputs. intros (?&?&?) (?&?&?). repeat split; congruence. Qed.

(** ** The speed policy *)

Lemma getSpeed_cases d :
  (d < 13 /\ getSpeed d = 2) \/
  (13 <= d < 26 /\ getSpeed d = 1) \/
  (26 <= d /\ getSpeed d = 0).
Proof.
  unfold getSpeed.
  destruct (Z.ltb_spec d 13); [left; lia|].
  destruct (Z.leb_spec 13 d); [|lia].
  destruct (Z.ltb_spec d 26); simpl; [right; left|right; right]; lia.
Qed.

(** C4. getSpeed is total and follows the three tiers: below 13 the slow
    delay, from 13 to 25 the medium one, from 26 on the fast one; the
    delay never grows with the difficulty, and it changes exactly when
    the difficulty reaches 13 and when it reaches 26. *)
Theorem getSpeed_tiers (d : Z) (Hd : 0 <= d) :
  getSpeed d = tier_delay (speed_for d) /\
  (d < 13 -> speed_for d = Slow) /\
  (13 <= d < 26 -> speed_for d = Medium) /\
  (26 <= d -> speed_for d = Fast) /\
  (forall d', d <= d' -> getSpeed d' <= getSpeed d) /\
  (getSpeed (d + 1) <> getSpeed d <-> d + 1 = 13 \/ d + 1 = 26).
Proof.
  assert (Hs : forall e, (e < 13 /\ speed_for e = Slow) \/
                         (13 <= e < 26 /\ speed_for e = Medium) \/
                         (26 <= e /\ speed_for e = Fast)).
  { intros e. unfold speed_for.
    destruct (Z.ltb_spec e 13); [left; split; [lia|reflexivity]|].
    destruct (Z.ltb_spec e 26); [right; left|right; right];
      (split; [lia|reflexivity]). }
  repeat split.
  - destruct (getSpeed_cases d) as [[? ->]|[[? ->]|[? ->]]];
      destruct (Hs d) as [[? ->]|[[? ->]|[? ->]]]; simpl; lia.
  - intros. destruct (Hs d) as [[? ->]|[[? ?]|[? ?]]]; [reflexivity|lia..].
  - intros. destruct (Hs d) as [[? ?]|[[? ->]|[? ?]]]; [lia|reflexivity|lia].
  - intros. destruct (Hs d) as [[? ?]|[[? ?]|[? ->]]]; [lia..|reflexivity].
  - intros d' Hle.
    destruct (getSpeed_cases d) as [[? ->]|[[? ->]|[? ->]]];
      destruct (getSpeed_cases d') as [[? ->]|[[? ->]|[? ->]]]; lia.
  - intros Hne.
    destruct (getSpeed_cases d) as [[? Hd0]|[[? Hd0]|[? Hd0]]];
      destruct (getSpeed_cases (d + 1)) as [[? Hd1]|[[? Hd1]|[? Hd1]]];
      rewrite Hd0, Hd1 in Hne; lia.
  - intros [H|H];
      destruct (getSpeed_cases d) as [[? ->]|[[? ->]|[? ->]]];
      destruct (getSpeed_cases (d + 1)) as [[? ->]|[[? ->]|[? ->]]]; lia.
Qed.

Lemma getSpeed_tiers_witness :
  getSpeed 12 = tier_delay (speed_for 12) /\
  (12 < 13 -> speed_for 12 = Slow) /\
  (13 <= 12 < 26 -> speed_for 12 = Medium) /\
  (26 <= 12 -> speed_for 12 = Fast) /\
  (forall d', 12 <= d' -> getSpeed d' <= getSpeed 12) /\
  (getSpeed (12 + 1) <> getSpeed 12 <-> 12 + 1 = 13 \/ 12 + 1 = 26).
Proof. apply (getSpeed_tiers 12). lia. Defined.

(** ** Acquiring a touch *)

Lemma pad_index_range e b : pad_index e = Some b -> 0 <= b <= 4.
Proof. destruct e; simpl; intros [= <-]; lia. Qed.

Lemma next_press_range ps b rest :
  next_press ps = Some (b, rest) -> 0 <= b <= 4.
Proof.
  induction ps as [|p ps IH]; simpl; [discriminate|].
  destruct p as [e|]; simpl; [|exact IH].
  destruct (pad_index e) eqn:He; [|exact IH].
  intros [= <- _]. eapply pad_index_range, He.
Qed.

Lemma next_press_shorter ps b rest :
  next_press ps = Some (b, rest) -> (length rest < length ps)%nat.
Proof.
  revert b rest. induction ps as [|p ps IH]; simpl; intros b rest; [discriminate|].
  destruct (poll_button p).
  - intros [= _ <-]. lia.
  - intros H. apply IH in H. lia.
Qed.

Lemma presses_next_press ps :
  presses ps = match next_press ps with
               | Some (b, rest) => b :: presses rest
               | None => []
               end.
Proof.
  induction ps as [|p ps IH]; simpl; [reflexivity|].
  destruct (poll_button p); [reflexivity | exact IH].
Qed.

Lemma presses_drop_presses n ps :
  presses (drop_presses n ps) = drop n (presses ps).
Proof.
  revert ps. induction n as [|n IH]; intros ps; simpl.
  - reflexivity.
  - rewrite (presses_next_press ps).
    destruct (next_press ps) as [[b rest]|]; simpl.
    + apply IH.
    + reflexivity.
Qed.

Lemma scanKeys_spec k bp w :
  exists w', scanKeys (Z.to_nat NUM_KEYS) 0 k bp w
             = Done (match pad_index k with Some i => i | None => bp end, w')
             /\ same_inputs w w'.
Proof.
  destruct k; eexists; (split; [reflexivity | repeat split]).
Qed.

Lemma getButton_loop_cons fuel w p ps :
  polls w = p :: ps ->
  exists w1,
    polls w1 = ps /\ rand_src w1 = rand_src w /\ rand_calls w1 = rand_calls w /\
    getButton_loop (S fuel) NULL_BUTTON w
    = match poll_button p with
      | Some b => Done (b, w1)
      | None => getButton_loop fuel NULL_BUTTON w1
      end.
Proof.
  intros Hps. cbn [getButton_loop]. run.
  unfold TI_CAPT_Buttons. run. rewrite Hps. run.
  destruct p as [k|]; cbn [poll_button]; run.
  - match goal with |- context [scanKeys _ _ _ _ ?w0] =>
      destruct (scanKeys_spec k NULL_BUTTON w0) as (w2 & -> & Hs1 & Hs2 & Hs3)
    end.
    exists w2. repeat split; try assumption.
    destruct (pad_index k) as [b|] eqn:Hk; [|reflexivity].
    assert (Hb := pad_index_range _ _ Hk).
    destruct (Z.eqb_spec b NULL_BUTTON) as [Hb'|_];
      [unfold NULL_BUTTON in Hb'; lia | reflexivity].
  - eexists. split; [|split; [|split; [|reflexivity]]]; reflexivity.
Qed.

Lemma getButton_loop_spec ps : forall fuel w,
  polls w = ps -> (length ps < fuel)%nat ->
  match next_press ps with
  | None => getButton_loop fuel NULL_BUTTON w = Pending
  | Some (b, rest) =>
      exists w', getButton_loop fuel NULL_BUTTON w = Done (b, w') /\
                 polls w' = rest /\
                 rand_src w' = rand_src w /\ rand_calls w' = rand_calls w
  end.
Proof.
  induction ps as [|p ps IH]; intros fuel w Hps Hfuel;
    (destruct fuel as [|fuel]; [simpl in Hfuel; lia|]).
  - cbn [getButton_loop next_press]. run. unfold TI_CAPT_Buttons. run.
    rewrite Hps. reflexivity.
  - destruct (getButton_loop_cons fuel w p ps Hps) as (w1 & Hp1 & Hr1 & Hc1 & ->).
    cbn [next_press]. destruct (poll_button p) as [b|].
    + exists w1. repeat split; assumption.
    + specialize (IH fuel w1 Hp1 ltac:(simpl in Hfuel; lia)).
      destruct (next_press ps) as [[b rest]|]; [|exact IH].
      destruct IH as (w3 & -> & ? & ? & ?).
      exists w3. repeat split; congruence.
Qed.

Lemma getButton_spec w :
  match next_press (polls w) with
  | None => getButton w = Pending
  | Some (b, rest) =>
      exists w', getButton w = Done (b, w') /\
                 polls w' = rest /\
                 rand_src w' = rand_src w /\ rand_calls w' = rand_calls w
  end.
Proof. apply getButton_loop_spec; [reflexivity | lia]. Qed.

Lemma getButton_range w b w' : getButton w = Done (b, w') -> 0 <= b <= 4.
Proof.
  intros H. pose proof (getButton_spec w) as Hs.
  destruct (next_press (polls w)) as [[b0 rest]|] eqn:Hn.
  - destruct Hs as (w0 & Hg & _). rewrite Hg in H. injection H as <- _.
    eapply next_press_range, Hn.
  - rewrite Hs in H. discriminate.
Qed.

Lemma pad_index_address_list e :
  e ∈ address_list -> exists b, pad_index e = Some b.
Proof.
  unfold address_list. rewrite !elem_of_cons, elem_of_nil.
  intros [->|[->|[->|[->|[->|[]]]]]]; eexists; reflexivity.
Qed.

Lemma next_press_some ps e :
  Some e ∈ ps -> e ∈ address_list -> exists b rest, next_press ps = Some (b, rest).
Proof.
  intros Hin Hpad. induction ps as [|p ps IH]; [inversion Hin|].
  simpl. destruct (poll_button p) as [b|] eqn:Hp; [eauto|].
  apply IH. apply elem_of_cons in Hin as [<-|Hin]; [|exact Hin].
  simpl in Hp. destruct (pad_index_address_list e Hpad) as [b Hb]. congruence.
Qed.

(** C8. getButton never hands NULL_BUTTON to its caller.  Whenever the
    poll history holds a touch of one of the five pads, the call returns,
    and the value it returns is a pad index between 0 and 4; a call that
    returns at all returns such an index. *)
Theorem getButton_valid_symbol (w : World) (e : Element)
    (Htouch : Some e ∈ polls w) (Hpad : e ∈ address_list) :
  (exists b w', getButton w = Done (b, w') /\ 0 <= b <= 4 /\ b <> NULL_BUTTON) /\
  (forall w0 b w', getButton w0 = Done (b, w') -> 0 <= b <= 4 /\ b <> NULL_BUTTON).
Proof.
  split.
  - destruct (next_press_some _ _ Htouch Hpad) as (b & rest & Hn).
    pose proof (getButton_spec w) as Hs. rewrite Hn in Hs.
    destruct Hs as (w' & Hg & _). exists b, w'.
    pose proof (next_press_range _ _ _ Hn). unfold NULL_BUTTON.
    repeat split; (assumption || lia).
  - intros w0 b w' Hg. apply getButton_range in Hg. unfold NULL_BUTTON. lia.
Qed.

Lemma getButton_valid_symbol_witness :
  exists b w', getButton (quiet_world [None; Some (OTHER 7); Some PAD3; Some PAD1])
               = Done (b, w') /\ 0 <= b <= 4 /\ b <> NULL_BUTTON.
Proof.
  apply (getButton_valid_symbol
           (quiet_world [None; Some (OTHER 7); Some PAD3; Some PAD1]) PAD3).
  - unfold quiet_world. simpl. rewrite !elem_of_cons. auto.
  - unfold address_list. rewrite !elem_of_cons. auto.
Defined.

(** ** The Welcome state *)

Lemma after_start_none ps : Some PAD1 ∉ ps -> after_start ps = None.
Proof.
  induction ps as [|p ps IH]; simpl; [reflexivity|].
  rewrite not_elem_of_cons. intros [Hne Hnin].
  rewrite bool_decide_eq_false_2 by congruence. auto.
Qed.

Lemma after_start_split pre rest :
  Some PAD1 ∉ pre -> after_start (pre ++ Some PAD1 :: rest) = Some rest.
Proof.
  induction pre as [|p pre IH]; simpl.
  - reflexivity.
  - rewrite not_elem_of_cons. intros [Hne Hnin].
    rewrite bool_decide_eq_false_2 by congruence. auto.
Qed.

Lemma poll_button_start p b :
  poll_button p = Some b -> (b = X <-> p = Some PAD1).
Proof.
  destruct p as [[]|]; simpl; intros [= <-]; unfold X; split;
    (reflexivity || discriminate || lia).
Qed.

Lemma poll_button_none_start p : poll_button p = None -> p <> Some PAD1.
Proof. intros H ->. discriminate. Qed.

Lemma next_press_after_start ps :
  match next_press ps with
  | None => after_start ps = None
  | Some (b, rest) =>
      after_start ps = if b =? X then Some rest else after_start rest
  end.
Proof.
  induction ps as [|p ps IH]; simpl; [reflexivity|].
  destruct (poll_button p) as [b|] eqn:Hp.
  - pose proof (poll_button_start _ _ Hp) as Hx.
    destruct (Z.eqb_spec b X) as [Hb|Hb].
    + rewrite bool_decide_eq_true_2 by tauto. reflexivity.
    + rewrite bool_decide_eq_false_2 by tauto. reflexivity.
  - rewrite bool_decide_eq_false_2 by (apply poll_button_none_start, Hp).
    exact IH.
Qed.

Lemma welcome_loop_spec : forall fuel w,
  (length (polls w) < fuel)%nat ->
  match after_start (polls w) with
  | None => welcome_loop fuel w = Pending
  | Some rest =>
      exists w', welcome_loop fuel w = Done (X, w') /\ polls w' = rest /\
                 rand_src w' = rand_src w /\ rand_calls w' = rand_calls w
  end.
Proof.
  induction fuel as [|fuel IH]; intros w Hfuel; [lia|].
  cbn [welcome_loop]. unfold bind.
  pose proof (getButton_spec w) as Hg.
  pose proof (next_press_after_start (polls w)) as Ha.
  destruct (next_press (polls w)) as [[b rest]|] eqn:Hn.
  - destruct Hg as (w1 & -> & Hp1 & Hr1 & Hc1). rewrite Ha.
    pose proof (next_press_range _ _ _ Hn) as Hb.
    pose proof (next_press_shorter _ _ _ Hn) as Hlen.
    destruct (Z.eqb_spec b NULL_BUTTON) as [Hb'|_];
      [unfold NULL_BUTTON in Hb'; lia|].
    destruct (Z.eqb_spec b X) as [->|Hx]; cbn [negb orb].
    + exists w1. repeat split; assumption.
    + specialize (IH w1 ltac:(rewrite Hp1; lia)). rewrite Hp1 in IH.
      destruct (after_start rest) as [rest'|]; [|exact IH].
      destruct IH as (w2 & -> & ? & ? & ?).
      exists w2. repeat split; congruence.
  - rewrite Hg, Ha. reflexivity.
Qed.

Lemma welcome_wait_spec w :
  match after_start (polls w) with
  | None => welcome_wait w = Pending
  | Some rest =>
      exists w', welcome_wait w = Done (X, w') /\ polls w' = rest /\
                 rand_src w' = rand_src w /\ rand_calls w' = rand_calls w
  end.
Proof. apply welcome_loop_spec. lia. Qed.

Lemma countDown_spec st w :
  exists w', countDown st w = Done (PLAYSEQ, w') /\ same_inputs w w'.
Proof.
  unfold countDown. run. eexists. split; [reflexivity | repeat split].
Qed.

Lemma main_iter_welcome l w :
  state l = WELCOME ->
  match after_start (polls w) with
  | None => main_iter l w = Pending
  | Some rest =>
      exists w', main_iter l w = Done (mkLocals PLAYSEQ X (givenSeq l) (diff l), w') /\
                 polls w' = rest /\
                 rand_src w' = rand_src w /\ rand_calls w' = rand_calls w
  end.
Proof.
  intros Hst. unfold main_iter. rewrite Hst.
  change (WELCOME =? WELCOME) with true. cbv iota.
  unfold dispWelcome. run.
  match goal with |- context [welcome_wait ?w0] =>
    pose proof (welcome_wait_spec w0) as Hw; cbn [polls rand_src rand_calls] in Hw
  end.
  destruct (after_start (polls w)) as [rest|].
  - destruct Hw as (w1 & -> & Hp & Hr & Hc).
    destruct (countDown_spec WELCOME w1) as (w2 & -> & Hr2 & Hc2 & Hp2).
    exists w2. repeat split; congruence.
  - rewrite Hw. reflexivity.
Qed.

(** C7. In the Welcome state the loop turn returns only through a touch
    of the start pad X.  While the poll history holds none, the handler
    is still polling at its end; when it holds one, every poll before
    the first start touch, pad or none, is dropped, the countdown runs
    and the state becomes PLAYSEQ with the later polls untouched. *)
Theorem welcome_leaves_only_on_start (l : Locals) (w : World)
    (Hst : state l = WELCOME) :
  (Some PAD1 ∉ polls w -> main_iter l w = Pending) /\
  (forall pre rest,
      polls w = pre ++ Some PAD1 :: rest -> Some PAD1 ∉ pre ->
      exists w', main_iter l w
                 = Done (mkLocals PLAYSEQ X (givenSeq l) (diff l), w') /\
                 polls w' = rest) /\
  (forall l' w', main_iter l w = Done (l', w') ->
      Some PAD1 ∈ polls w /\ state l' = PLAYSEQ /\ button l' = X).
Proof.
  pose proof (main_iter_welcome l w Hst) as Hm.
  repeat split.
  - intros Hnin. rewrite (after_start_none _ Hnin) in Hm. exact Hm.
  - intros pre rest Hps Hnin. rewrite Hps, (after_start_split _ _ Hnin) in Hm.
    destruct Hm as (w' & Hm & Hp & _). eauto.
  - destruct (decide (Some PAD1 ∈ polls w)) as [Hin|Hnin]; [exact Hin|].
    rewrite (after_start_none _ Hnin) in Hm. congruence.
  - destruct (after_start (polls w)); [|congruence].
    destruct Hm as (w1 & Hm & _). rewrite Hm in H. injection H as <- _. reflexivity.
  - destruct (after_start (polls w)); [|congruence].
    destruct Hm as (w1 & Hm & _). rewrite Hm in H. injection H as <- _. reflexivity.
Qed.

Lemma welcome_leaves_only_on_start_witness :
  main_iter main_init (quiet_world [Some PAD2; None; Some (OTHER 1); Some PAD5]) = Pending /\
  exists w', main_iter main_init (quiet_world [Some PAD2; None; Some PAD1; Some PAD3])
             = Done (mkLocals PLAYSEQ X (givenSeq main_init) (diff main_init), w') /\
             polls w' = [Some PAD3].
Proof.
  split.
  - apply (proj1 (welcome_leaves_only_on_start main_init
             (quiet_world [Some PAD2; None; Some (OTHER 1); Some PAD5]) eq_refl)).
    unfold quiet_world. simpl. rewrite !not_elem_of_cons.
    repeat split; try discriminate. apply not_elem_of_nil.
  - apply (proj1 (proj2 (welcome_leaves_only_on_start main_init
             (quiet_world [Some PAD2; None; Some PAD1; Some PAD3]) eq_refl))
             [Some PAD2; None] [Some PAD3]).
    + reflexivity.
    + rewrite !not_elem_of_cons. repeat split; try discriminate. apply not_elem_of_nil.
Defined.

(** ** Checking the sequence *)

Lemma displayButton_spec b w :
  exists w', displayButton b w = Done (tt, w') /\ same_inputs w w'.
Proof.
  unfold displayButton.
  repeat (match goal with |- context [?a =? ?c] => destruct (a =? c) end);
    run; (eexists; split; [reflexivity | repeat split]).
Qed.

Lemma array_get_Some {A} (a : list A) (i : nat) (v : A) w :
  a !! i = Some v -> array_get a (Z.of_nat i) w = Done (v, w).
Proof.
  intros H. unfold array_get.
  destruct (Z.leb_spec 0 (Z.of_nat i)); [|lia].
  rewrite Nat2Z.id, H. reflexivity.
Qed.

Lemma array_get_inv {A} (a : list A) (i : Z) (v : A) w w' :
  array_get a i w = Done (v, w') -> w' = w /\ 0 <= i /\ a !! Z.to_nat i = Some v.
Proof.
  unfold array_get. destruct (Z.leb_spec 0 i); [|discriminate].
  destruct (a !! Z.to_nat i); [|discriminate].
  intros [= <- <-]. auto.
Qed.

(** One turn of the checking loop: a touch is awaited and shown, then
    compared with the stored symbol. *)
Lemma checkLoop_step n cb sequence c w :
  match next_press (polls w) with
  | None => checkLoop (S n) cb sequence c w = Pending
  | Some (b, rest) =>
      exists w1,
        polls w1 = rest /\ rand_src w1 = rand_src w /\ rand_calls w1 = rand_calls w /\
        checkLoop (S n) cb sequence c w
        = bind (array_get sequence cb)
               (fun s => if negb (b =? s) then ret 0
                         else checkLoop n (cb + 1) sequence c) w1
  end.
Proof.
  cbn [checkLoop]. run.
  match goal with |- context [getButton ?w0] =>
    pose proof (getButton_spec w0) as Hg; cbn [polls rand_src rand_calls] in Hg
  end.
  destruct (next_press (polls w)) as [[b rest]|].
  - destruct Hg as (w1 & -> & Hp1 & Hr1 & Hc1).
    destruct (displayButton_spec b w1) as (w2 & -> & Hr2 & Hc2 & Hp2).
    eexists. split; [|split; [|split; [|reflexivity]]]; cbn [polls rand_src rand_calls];
      congruence.
  - rewrite Hg. reflexivity.
Qed.

Lemma presses_head ps b :
  presses ps !! 0%nat = Some b ->
  exists rest, next_press ps = Some (b, rest) /\ presses ps = b :: presses rest.
Proof.
  rewrite (presses_next_press ps).
  destruct (next_press ps) as [[b0 rest]|]; simpl; [|discriminate].
  intros [= ->]. eauto.
Qed.

Lemma drop_presses_S n ps b rest :
  next_press ps = Some (b, rest) -> drop_presses (S n) ps = drop_presses n rest.
Proof. intros H. cbn [drop_presses]. rewrite H. reflexivity. Qed.

Lemma checkLoop_mismatch : forall (i n k : nat) sequence c w b s,
  (i < n)%nat ->
  (forall j, (j < i)%nat -> presses (polls w) !! j = sequence !! (k + j)%nat) ->
  presses (polls w) !! i = Some b ->
  sequence !! (k + i)%nat = Some s ->
  b <> s ->
  exists w', checkLoop n (Z.of_nat k) sequence c w = Done (0, w') /\
             polls w' = drop_presses (S i) (polls w) /\
             rand_src w' = rand_src w /\ rand_calls w' = rand_calls w.
Proof.
  induction i as [|i IH]; intros n k sequence c w b s Hn Hpre Hb Hs Hne;
    (destruct n as [|n]; [lia|]).
  - destruct (presses_head _ _ Hb) as (rest & Hnp & _).
    pose proof (checkLoop_step n (Z.of_nat k) sequence c w) as Hstep.
    rewrite Hnp in Hstep. destruct Hstep as (w1 & Hp1 & Hr1 & Hc1 & ->).
    cbn [bind]. rewrite Nat.add_0_r in Hs. rewrite (array_get_Some _ _ _ _ Hs).
    destruct (Z.eqb_spec b s); [contradiction|]. cbn [negb ret].
    exists w1. rewrite (drop_presses_S _ _ _ _ Hnp). auto.
  - assert (Hk : is_Some (sequence !! k)).
    { apply lookup_lt_is_Some. apply lookup_lt_Some in Hs. lia. }
    destruct Hk as [s0 Hs0].
    assert (Hb0 : presses (polls w) !! 0%nat = Some s0).
    { rewrite (Hpre 0%nat) by lia. rewrite Nat.add_0_r. exact Hs0. }
    destruct (presses_head _ _ Hb0) as (rest & Hnp & Hpr).
    pose proof (checkLoop_step n (Z.of_nat k) sequence c w) as Hstep.
    rewrite Hnp in Hstep. destruct Hstep as (w1 & Hp1 & Hr1 & Hc1 & ->).
    cbn [bind]. rewrite (array_get_Some _ _ _ _ Hs0).
    rewrite Z.eqb_refl. cbn [negb].
    replace (Z.of_nat k + 1) with (Z.of_nat (S k)) by lia.
    destruct (IH n (S k) sequence c w1 b s) as (w' & Hrun & Hp' & Hr' & Hc');
      try assumption.
    + lia.
    + intros j Hj. rewrite Hp1.
      specialize (Hpre (S j) ltac:(lia)). rewrite Hpr in Hpre.
      change (presses rest !! j = sequence !! (k + S j)%nat) in Hpre.
      rewrite Hpre. f_equal. lia.
    + rewrite Hp1. rewrite Hpr in Hb. exact Hb.
    + rewrite <- Hs. f_equal. lia.
    + exists w'. split; [exact Hrun|].
      rewrite (drop_presses_S _ _ _ _ Hnp), <- Hp1.
      repeat split; congruence.
Qed.

Lemma checkLoop_all_correct : forall (n k : nat) sequence c w,
  (forall j, (j < n)%nat ->
     exists s, presses (polls w) !! j = Some s /\ sequence !! (k + j)%nat = Some s) ->
  exists w', checkLoop n (Z.of_nat k) sequence c w = Done (c, w') /\
             polls w' = drop_presses n (polls w) /\
             rand_src w' = rand_src w /\ rand_calls w' = rand_calls w.
Proof.
  induction n as [|n IH]; intros k sequence c w Hall.
  - exists w. cbn. auto.
  - destruct (Hall 0%nat ltac:(lia)) as (s0 & Hb0 & Hs0).
    rewrite Nat.add_0_r in Hs0.
    destruct (presses_head _ _ Hb0) as (rest & Hnp & Hpr).
    pose proof (checkLoop_step n (Z.of_nat k) sequence c w) as Hstep.
    rewrite Hnp in Hstep. destruct Hstep as (w1 & Hp1 & Hr1 & Hc1 & ->).
    cbn [bind]. rewrite (array_get_Some _ _ _ _ Hs0).
    rewrite Z.eqb_refl. cbn [negb].
    replace (Z.of_nat k + 1) with (Z.of_nat (S k)) by lia.
    destruct (IH (S k) sequence c w1) as (w' & Hrun & Hp' & Hr' & Hc').
    + intros j Hj. destruct (Hall (S j) ltac:(lia)) as (s & Hb & Hs).
      exists s. rewrite Hp1. rewrite Hpr in Hb. split; [exact Hb|].
      rewrite <- Hs. f_equal. lia.
    + exists w'. split; [exact Hrun|].
      rewrite (drop_presses_S _ _ _ _ Hnp), <- Hp1.
      repeat split; congruence.
Qed.

(** Whatever the touches, the loop only consumes polls and reports 0 or
    the flag it was given. *)
Lemma checkLoop_inv : forall n cb sequence c w r w',
  checkLoop n cb sequence c w = Done (r, w') ->
  (r = c \/ r = 0) /\ rand_src w' = rand_src w /\ rand_calls w' = rand_calls w.
Proof.
  induction n as [|n IH]; intros cb sequence c w r w' Hrun.
  - cbn in Hrun. injection Hrun as <- <-. auto.
  - pose proof (checkLoop_step n cb sequence c w) as Hstep.
    destruct (next_press (polls w)) as [[b rest]|]; [|congruence].
    destruct Hstep as (w1 & Hp1 & Hr1 & Hc1 & Heq). rewrite Heq in Hrun.
    apply bind_inv in Hrun as (s & w2 & Hget & Hrun).
    apply array_get_inv in Hget as (-> & _ & _).
    destruct (negb (b =? s)).
    + cbn in Hrun. injection Hrun as <- <-. repeat split; auto.
    + apply IH in Hrun as (Hr & ? & ?). repeat split; congruence.
Qed.

Lemma checkSequence_all_correct sequence d st w :
  0 <= d ->
  (forall j, (j <= Z.to_nat d)%nat ->
     exists s, presses (polls w) !! j = Some s /\ sequence !! j = Some s) ->
  exists w',
    checkSequence sequence d st w
    = Done ((sequence,
             (if d <? MAX_SEQ_LENGTH then d + 1 else d),
             (if d <? MAX_SEQ_LENGTH then PLAYSEQ else CONGRATS)), w') /\
    polls w' = drop_presses (S (Z.to_nat d)) (polls w) /\
    rand_src w' = rand_src w /\ rand_calls w' = rand_calls w.
Proof.
  intros Hd Hall. unfold checkSequence. run.
  replace (Z.to_nat (d + 1)) with (S (Z.to_nat d)) by lia.
  match goal with |- context [checkLoop _ _ _ _ ?w0] =>
    destruct (checkLoop_all_correct (S (Z.to_nat d)) 0 sequence 1 w0)
      as (w1 & Hrun & Hp1 & Hr1 & Hc1)
  end.
  { intros j Hj. cbn [polls]. apply Hall. lia. }
  cbn [polls rand_src rand_calls] in Hp1, Hr1, Hc1.
  change (Z.of_nat 0) with 0 in Hrun. rewrite Hrun.
  change (negb (1 =? 0)) with true. cbv iota.
  destruct (d <? MAX_SEQ_LENGTH); run;
    (eexists; split; [reflexivity|]); cbn [polls rand_src rand_calls]; auto.
Qed.

(** The effect of [checkSequence] on what it points to, whatever was touched. *)
Lemma checkSequence_inv sequence d st w sq' d' st' w' :
  checkSequence sequence d st w = Done ((sq', d', st'), w') ->
  sq' = sequence /\
  rand_src w' = rand_src w /\ rand_calls w' = rand_calls w /\
  ((st' = ERROR /\ d' = d) \/
   (st' = PLAYSEQ /\ d' = d + 1 /\ d < MAX_SEQ_LENGTH) \/
   (st' = CONGRATS /\ d' = d /\ MAX_SEQ_LENGTH <= d)).
Proof.
  unfold checkSequence. run.
  match goal with |- context [checkLoop ?n ?cb ?s ?c ?w0] =>
    destruct (checkLoop n cb s c w0) as [[r w1]| |] eqn:Hloop; try discriminate
  end.
  apply checkLoop_inv in Hloop as (Hr & Hrs & Hrc).
  cbn [rand_src rand_calls] in Hrs, Hrc.
  destruct Hr as [-> | ->].
  - change (negb (1 =? 0)) with true. cbv iota. run.
    destruct (Z.ltb_spec d MAX_SEQ_LENGTH); intros [= <- <- <- <-];
      cbn [rand_src rand_calls]; repeat split; auto.
  - change (negb (0 =? 0)) with false. cbv iota.
    intros [= <- <- <- <-]. repeat split; auto.
Qed.

(** C3. The comparisons run in order from position 0 and stop at the
    first mismatch: when the touches agree with the stored sequence at
    every position below i and differ at i, with i within the round and
    inside the array, checkSequence returns with the state ERROR and the
    difficulty as it was, having taken exactly i+1 touches: the polls it
    leaves are those after the touch of position i. *)
Theorem checkSequence_first_mismatch
    (sequence : list Z) (d st : Z) (w : World) (i : nat) (b s : Z)
    (Hi : Z.of_nat i <= d)
    (Hpre : forall j, (j < i)%nat -> presses (polls w) !! j = sequence !! j)
    (Hb : presses (polls w) !! i = Some b)
    (Hs : sequence !! i = Some s)
    (Hne : b <> s) :
  exists w',
    checkSequence sequence d st w = Done ((sequence, d, ERROR), w') /\
    polls w' = drop_presses (S i) (polls w) /\
    presses (polls w') = drop (S i) (presses (polls w)).
Proof.
  unfold checkSequence. run.
  match goal with |- context [checkLoop ?n _ _ _ ?w0] =>
    destruct (checkLoop_mismatch i n 0 sequence 1 w0 b s)
      as (w1 & Hrun & Hp1 & _); try assumption
  end.
  { lia. }
  cbn [polls] in Hp1. change (Z.of_nat 0) with 0 in Hrun. rewrite Hrun.
  change (negb (0 =? 0)) with false. cbv iota. run.
  exists w1. split; [reflexivity|]. split; [exact Hp1|].
  rewrite Hp1. apply presses_drop_presses.
Qed.

Lemma checkSequence_first_mismatch_witness :
  exists w',
    checkSequence [0; 1; 2] 2 CHECSEQ (quiet_world [Some PAD1; None; Some PAD4; Some PAD3])
    = Done (([0; 1; 2], 2, ERROR), w') /\
    polls w' = drop_presses 2 [Some PAD1; None; Some PAD4; Some PAD3] /\
    presses (polls w') = drop 2 (presses [Some PAD1; None; Some PAD4; Some PAD3]).
Proof.
  apply (checkSequence_first_mismatch [0; 1; 2] 2 CHECSEQ
           (quiet_world [Some PAD1; None; Some PAD4; Some PAD3]) 1 3 1).
  - lia.
  - intros [|j] Hj; [reflexivity | lia].
  - reflexivity.
  - reflexivity.
  - lia.
Defined.

(** ** The capacity boundary *)

Lemma playSequence_out_of_bounds sequence d st w :
  Z.of_nat (length sequence) <= d -> playSequence sequence d st w = Undefined.
Proof.
  intros Hd. unfold playSequence. run. unfold array_set.
  destruct (Z.leb_spec 0 d); destruct (Z.ltb_spec d (Z.of_nat (length sequence)));
    try lia; reflexivity.
Qed.

Lemma presses_replicate_PAD1 n : presses (replicate n (Some PAD1)) = replicate n 0.
Proof. induction n as [|n IH]; simpl; [reflexivity | now rewrite IH]. Qed.

(** ** The turns of the main loop, state by state *)

Lemma errorMsg_spec st w :
  exists w', errorMsg st w = Done (WELCOME, w') /\ P1OUT w' = P1OUT w /\ same_inputs w w'.
Proof.
  unfold errorMsg. run. eexists. split; [reflexivity | repeat split].
Qed.

Lemma congratsMsg_spec st w :
  exists w', congratsMsg st w = Done (WELCOME, w') /\ P1OUT w' = P1OUT w /\ same_inputs w w'.
Proof.
  unfold congratsMsg. run. eexists. split; [reflexivity | repeat split].
Qed.

Lemma main_iter_message l w :
  state l = ERROR \/ state l = CONGRATS ->
  exists w', main_iter l w
             = Done (mkLocals WELCOME (button l) (givenSeq l) (diff l), w') /\
             same_inputs w w'.
Proof.
  intros [Hst|Hst]; unfold main_iter; rewrite Hst.
  - change (ERROR =? WELCOME) with false. change (ERROR =? PLAYSEQ) with false.
    change (ERROR =? CHECSEQ) with false. change (ERROR =? ERROR) with true.
    cbv iota. cbn [bind].
    destruct (errorMsg_spec ERROR w) as (w' & -> & _ & Hs).
    exists w'. split; [reflexivity | exact Hs].
  - change (CONGRATS =? WELCOME) with false. change (CONGRATS =? PLAYSEQ) with false.
    change (CONGRATS =? CHECSEQ) with false. change (CONGRATS =? ERROR) with false.
    change (CONGRATS =? CONGRATS) with true.
    cbv iota. cbn [bind].
    destruct (congratsMsg_spec CONGRATS w) as (w' & -> & _ & Hs).
    exists w'. split; [reflexivity | exact Hs].
Qed.

Lemma playLoop_inv : forall n playLED sequence level w u w',
  playLoop n playLED sequence level w = Done (u, w') -> same_inputs w w'.
Proof.
  induction n as [|n IH]; intros playLED sequence level w u w' Hrun.
  - cbn in Hrun. injection Hrun as _ <-. apply same_inputs_refl.
  - cbn [playLoop] in Hrun.
    apply bind_inv in Hrun as (s & w1 & Hg & Hrun).
    apply array_get_inv in Hg as (-> & _ & _).
    apply bind_inv in Hrun as (m & w1 & Hg & Hrun).
    apply array_get_inv in Hg as (-> & _ & _).
    run_in Hrun.
    apply bind_inv in Hrun as (s' & w1 & Hg & Hrun).
    apply array_get_inv in Hg as (-> & _ & _).
    apply bind_inv in Hrun as (m' & w1 & Hg & Hrun).
    apply array_get_inv in Hg as (-> & _ & _).
    run_in Hrun.
    apply IH in Hrun. destruct Hrun as (? & ? & ?). repeat split; assumption.
Qed.

Lemma playSequence_inv sequence d st w sq' d' st' w' :
  playSequence sequence d st w = Done ((sq', d', st'), w') ->
  0 <= d < Z.of_nat (length sequence) /\
  sq' = <[Z.to_nat d := Z.rem (rand_src w (rand_calls w)) NUM_KEYS]> sequence /\
  d' = d /\ st' = CHECSEQ /\
  rand_src w' = rand_src w /\ rand_calls w' = S (rand_calls w) /\ polls w' = polls w.
Proof.
  unfold playSequence. run. intros Hrun.
  apply bind_inv in Hrun as (sq & w1 & Hset & Hrun).
  unfold array_set in Hset.
  destruct (Z.leb_spec 0 d); destruct (Z.ltb_spec d (Z.of_nat (length sequence)));
    try discriminate.
  cbn in Hset. injection Hset as <- <-.
  apply bind_inv in Hrun as (u & w1 & Hloop & Hrun).
  apply playLoop_inv in Hloop as (Hr & Hc & Hp).
  cbn in Hrun, Hr, Hc, Hp. injection Hrun as <- <- <- <-.
  repeat split; (assumption || lia).
Qed.

Lemma main_iter_valid_state l w l' w' :
  valid_state (state l) -> main_iter l w = Done (l', w') -> valid_state (state l').
Proof.
  unfold valid_state. intros Hv Hrun.
  destruct Hv as [Hst|[Hst|[Hst|Hst]]].
  - pose proof (main_iter_welcome l w Hst) as Hm.
    destruct (after_start (polls w)); [|congruence].
    destruct Hm as (w1 & Hm & _). rewrite Hm in Hrun. injection Hrun as <- _.
    cbn. auto.
  - unfold main_iter in Hrun. rewrite Hst in Hrun.
    change (PLAYSEQ =? WELCOME) with false in Hrun.
    change (PLAYSEQ =? PLAYSEQ) with true in Hrun. cbv iota in Hrun.
    apply bind_inv in Hrun as ([[sq d] st] & w1 & Hplay & Hrun).
    apply playSequence_inv in Hplay as (_ & _ & _ & -> & _).
    cbn in Hrun. injection Hrun as <- _. cbn. auto.
  - unfold main_iter in Hrun. rewrite Hst in Hrun.
    change (CHECSEQ =? WELCOME) with false in Hrun.
    change (CHECSEQ =? PLAYSEQ) with false in Hrun.
    change (CHECSEQ =? CHECSEQ) with true in Hrun. cbv iota in Hrun.
    apply bind_inv in Hrun as ([[sq d] st] & w1 & Hchk & Hrun).
    apply checkSequence_inv in Hchk as (_ & _ & _ & Hcase).
    cbn in Hrun. injection Hrun as <- _. cbn.
    destruct Hcase as [[-> _]|[[-> _]|[-> _]]]; auto.
  - destruct (main_iter_message l w Hst) as (w1 & Hm & _).
    rewrite Hm in Hrun. injection Hrun as <- _. cbn. auto.
Qed.

Lemma main_loop_valid_state : forall n l w l' w',
  valid_state (state l) -> main_loop n l w = Done (l', w') -> valid_state (state l').
Proof.
  induction n as [|n IH]; intros l w l' w' Hv Hrun.
  - cbn in Hrun. injection Hrun as <- _. exact Hv.
  - cbn [main_loop] in Hrun.
    apply bind_inv in Hrun as (l1 & w1 & Hiter & Hrun).
    eapply IH; [|exact Hrun]. eapply main_iter_valid_state; eassumption.
Qed.

(** C10. The state variable starts as WELCOME, and after any number of
    turns of the main loop it holds one of WELCOME, PLAYSEQ, CHECSEQ,
    ERROR and CONGRATS; there is no stored countdown state: the turn that
    starts in WELCOME runs the countdown and stores PLAYSEQ. *)
Theorem state_tag_invariant (n : nat) (w : World) (l' : Locals) (w' : World)
    (Hrun : main n w = Done (l', w')) :
  state main_init = WELCOME /\
  valid_state (state l') /\
  (forall l0 w0 l1 w1,
      state l0 = WELCOME -> main_iter l0 w0 = Done (l1, w1) -> state l1 = PLAYSEQ).
Proof.
  split; [reflexivity|]. split.
  - unfold main, initSys, configTouchPadLEDs, configDisplay in Hrun. run_in Hrun.
    eapply main_loop_valid_state; [|exact Hrun]. left. reflexivity.
  - intros l0 w0 l1 w1 Hst Hiter.
    pose proof (main_iter_welcome l0 w0 Hst) as Hm.
    destruct (after_start (polls w0)); [|congruence].
    destruct Hm as (w2 & Hm & _). rewrite Hm in Hiter. injection Hiter as <- _.
    reflexivity.
Qed.

Lemma state_tag_invariant_witness :
  exists l' w',
    main 3 (quiet_world [None; Some PAD2; Some PAD1; Some PAD4]) = Done (l', w') /\
    state l' = ERROR /\ valid_state (state l').
Proof.
  assert (Hrun : exists l' w',
             main 3 (quiet_world [None; Some PAD2; Some PAD1; Some PAD4])
             = Done (l', w') /\ state l' = ERROR).
  { eexists. eexists. split; vm_compute; reflexivity. }
  destruct Hrun as (l' & w' & Hrun & Hst).
  exists l', w'. split; [exact Hrun|]. split; [exact Hst|].
  exact (proj1 (proj2 (state_tag_invariant 3 _ l' w' Hrun))).
Defined.

(** ** What the transitions leave unchanged *)

Lemma main_iter_frame l w l' w' :
  state l <> PLAYSEQ -> main_iter l w = Done (l', w') ->
  givenSeq l' = givenSeq l /\
  (state l <> CHECSEQ -> diff l' = diff l) /\
  rand_src w' = rand_src w /\ rand_calls w' = rand_calls w.
Proof.
  intros Hst Hrun.
  destruct (Z.eq_dec (state l) WELCOME) as [Hw|Hw].
  { pose proof (main_iter_welcome l w Hw) as Hm.
    destruct (after_start (polls w)); [|congruence].
    destruct Hm as (w1 & Hm & _ & Hr & Hc). rewrite Hm in Hrun.
    injection Hrun as <- <-. cbn. auto. }
  destruct (Z.eq_dec (state l) CHECSEQ) as [Hc|Hc].
  { unfold main_iter in Hrun. rewrite Hc in Hrun.
    change (CHECSEQ =? WELCOME) with false in Hrun.
    change (CHECSEQ =? PLAYSEQ) with false in Hrun.
    change (CHECSEQ =? CHECSEQ) with true in Hrun. cbv iota in Hrun.
    apply bind_inv in Hrun as ([[sq d] st] & w1 & Hchk & Hrun).
    apply checkSequence_inv in Hchk as (-> & Hr & Hrc & _).
    cbn in Hrun. injection Hrun as <- <-. cbn. repeat split; auto. contradiction. }
  destruct (Z.eq_dec (state l) ERROR) as [He|He].
  { destruct (main_iter_message l w (or_introl He)) as (w1 & Hm & Hr & Hrc & _).
    rewrite Hm in Hrun. injection Hrun as <- <-. cbn. auto. }
  destruct (Z.eq_dec (state l) CONGRATS) as [Hg|Hg].
  { destruct (main_iter_message l w (or_intror Hg)) as (w1 & Hm & Hr & Hrc & _).
    rewrite Hm in Hrun. injection Hrun as <- <-. cbn. auto. }
  unfold main_iter in Hrun.
  rewrite (proj2 (Z.eqb_neq _ _) Hw), (proj2 (Z.eqb_neq _ _) Hst),
    (proj2 (Z.eqb_neq _ _) Hc), (proj2 (Z.eqb_neq _ _) He),
    (proj2 (Z.eqb_neq _ _) Hg) in Hrun.
  cbn in Hrun. injection Hrun as <- <-. auto.
Qed.

(** C9. The transitions that do not generate a symbol leave the stored
    sequence alone: a turn of the main loop in any state other than
    PLAYSEQ returns with the array as it was and without drawing from
    rand; outside CHECSEQ (so through countDown, errorMsg or
    congratsMsg) it also returns with the difficulty as it was.
    checkSequence itself hands back the array it was given, and changes
    the difficulty only by the increment of a passed round. *)
Theorem non_generating_transitions_frame
    (l : Locals) (w : World) (l' : Locals) (w' : World)
    (Hst : state l <> PLAYSEQ)
    (Hrun : main_iter l w = Done (l', w')) :
  givenSeq l' = givenSeq l /\
  (state l <> CHECSEQ -> diff l' = diff l) /\
  rand_calls w' = rand_calls w /\
  (forall sequence d st w0 sq' d' st' w1,
      checkSequence sequence d st w0 = Done ((sq', d', st'), w1) ->
      sq' = sequence /\ (d' = d \/ (d' = d + 1 /\ st' = PLAYSEQ))).
Proof.
  destruct (main_iter_frame l w l' w' Hst Hrun) as (Hseq & Hdiff & _ & Hcalls).
  split; [exact Hseq|]. split; [exact Hdiff|]. split; [exact Hcalls|].
  intros sequence d st w0 sq' d' st' w1 Hchk.
  apply checkSequence_inv in Hchk as (-> & _ & _ & Hcase).
  split; [reflexivity|].
  destruct Hcase as [[_ ->]|[(-> & -> & _)|(_ & -> & _)]]; auto.
Qed.

Lemma non_generating_transitions_frame_witness :
  exists l' w',
    main_iter lost_round (quiet_world []) = Done (l', w') /\
    givenSeq l' = givenSeq lost_round /\ diff l' = diff lost_round.
Proof.
  assert (Hrun : exists l' w', main_iter lost_round (quiet_world []) = Done (l', w')).
  { eexists. eexists. vm_compute. reflexivity. }
  destruct Hrun as (l' & w' & Hrun).
  assert (Hst : state lost_round <> PLAYSEQ) by discriminate.
  exists l', w'. split; [exact Hrun|].
  split.
  - exact (proj1 (non_generating_transitions_frame _ _ _ _ Hst Hrun)).
  - apply (proj1 (proj2 (non_generating_transitions_frame _ _ _ _ Hst Hrun))).
    discriminate.
Defined.

(** ** Error and Congrats *)

(** C2, as stated, fails: after a lost round at difficulty 2 the error
    turn returns to WELCOME with difficulty 2 and the three stored
    symbols still in place. *)
Lemma message_does_not_reset :
  (exists w', main_iter lost_round (quiet_world [])
              = Done (mkLocals WELCOME X ([2; 4; 1] ++ replicate 61 0) 2, w')) /\
  ~ message_resets_game.
Proof.
  assert (Hrun : exists w', main_iter lost_round (quiet_world [])
              = Done (mkLocals WELCOME X ([2; 4; 1] ++ replicate 61 0) 2, w')).
  { eexists. vm_compute. reflexivity. }
  split; [exact Hrun|].
  destruct Hrun as (w' & Hrun). intros Hreset.
  destruct (Hreset lost_round (quiet_world []) _ w' (or_introl eq_refl) Hrun) as [Hd _].
  discriminate Hd.
Qed.

(** C2, amended.  In the ERROR and in the CONGRATS state the turn of the
    main loop always returns, with the state WELCOME and with the
    difficulty, the stored sequence and the last button exactly as they
    were; errorMsg and congratsMsg receive the state alone and store
    WELCOME in it. *)
Theorem message_returns_to_welcome_keeping_game
    (l : Locals) (w : World)
    (Hst : state l = ERROR \/ state l = CONGRATS) :
  (exists w', main_iter l w
              = Done (mkLocals WELCOME (button l) (givenSeq l) (diff l), w') /\
              same_inputs w w') /\
  (forall st w0, exists w1, errorMsg st w0 = Done (WELCOME, w1)) /\
  (forall st w0, exists w1, congratsMsg st w0 = Done (WELCOME, w1)).
Proof.
  split; [apply main_iter_message, Hst|].
  split; intros st w0.
  - destruct (errorMsg_spec st w0) as (w1 & H & _). eauto.
  - destruct (congratsMsg_spec st w0) as (w1 & H & _). eauto.
Qed.

Lemma message_returns_to_welcome_keeping_game_witness :
  exists w', main_iter lost_round (quiet_world [Some PAD1])
             = Done (mkLocals WELCOME (button lost_round) (givenSeq lost_round)
                              (diff lost_round), w') /\
             same_inputs (quiet_world [Some PAD1]) w'.
Proof.
  apply (proj1 (message_returns_to_welcome_keeping_game lost_round
                  (quiet_world [Some PAD1]) (or_introl eq_refl))).
Defined.

(** ** Playing the sequence *)

Lemma uint8_testbit v n : Z.testbit (uint8 v) n = (n <? 8) && Z.testbit v n.
Proof. unfold uint8. change 256 with (2 ^ 8). apply Z.testbit_mod_pow2. lia. Qed.

Lemma led_of_cases s :
  0 <= s < NUM_KEYS -> s = 0 \/ s = 1 \/ s = 2 \/ s = 3 \/ s = 4.
Proof. unfold NUM_KEYS. lia. Qed.

Lemma array_get_ledMask s w :
  0 <= s < NUM_KEYS ->
  array_get ledMask s w = Done (led_of s, w) /\ Z.land (led_of s) LED_BITS = led_of s.
Proof.
  intros Hs. destruct (led_of_cases s Hs) as [->|[->|[->|[->| ->]]]];
    split; reflexivity.
Qed.

(** Lighting one pad on a port whose LED bits are off, then clearing
    its bit again, gives the port back. *)
Lemma blink_restores p m :
  Z.land m LED_BITS = m ->
  uint8 (Z.land (uint8 (Z.lor (uint8 (Z.land p (Z.lnot LED_BITS))) m)) (Z.lnot m))
  = uint8 (Z.land p (Z.lnot LED_BITS)).
Proof.
  intros Hm. apply Z.bits_inj'. intros n Hn.
  assert (Hbit : Z.testbit m n = Z.testbit m n && Z.testbit LED_BITS n).
  { rewrite <- Z.land_spec, Hm. reflexivity. }
  rewrite uint8_testbit, Z.land_spec, uint8_testbit, Z.lor_spec, uint8_testbit,
    Z.land_spec, !Z.lnot_spec by lia.
  destruct (n <? 8), (Z.testbit p n), (Z.testbit m n), (Z.testbit LED_BITS n);
    cbn in *; congruence.
Qed.

Lemma playLoop_spec : forall (n k : nat) sequence level w p,
  P1OUT w = uint8 (Z.land p (Z.lnot LED_BITS)) ->
  (forall j, (k <= j < k + n)%nat ->
     exists s, sequence !! j = Some s /\ 0 <= s < NUM_KEYS) ->
  exists w',
    playLoop n (Z.of_nat k) sequence level w = Done (tt, w') /\
    P1OUT w' = P1OUT w /\
    trace w' = trace w ++ flat_map (blink (P1OUT w) (getSpeed level))
                                   (take n (drop k sequence)) /\
    same_inputs w w'.
Proof.
  induction n as [|n IH]; intros k sequence level w p HP Hsym.
  - exists w. cbn. rewrite app_nil_r. repeat split.
  - destruct (Hsym k ltac:(lia)) as (s & Hs & Hrange).
    destruct (array_get_ledMask s w Hrange) as (Hmask & Hsub).
    cbn [playLoop]. run.
    rewrite (array_get_Some _ _ _ _ Hs). cbv beta iota.
    rewrite Hmask. run.
    match goal with |- context [array_get sequence _ ?w0] =>
      rewrite (array_get_Some sequence k s w0 Hs)
    end.
    cbv beta iota.
    match goal with |- context [array_get ledMask s ?w0] =>
      rewrite (proj1 (array_get_ledMask s w0 Hrange))
    end.
    run.
    rewrite HP, (blink_restores p _ Hsub), <- HP.
    replace (Z.of_nat k + 1) with (Z.of_nat (S k)) by lia.
    match goal with |- context [playLoop n _ _ _ ?w0] =>
      destruct (IH (S k) sequence level w0 p) as (w' & Hrun & HP' & Htr & Hin)
    end.
    + exact HP.
    + intros j Hj. apply Hsym. lia.
    + cbn [P1OUT trace] in HP', Htr.
      exists w'. split; [exact Hrun|]. split; [exact HP'|]. split; [|exact Hin].
      rewrite Htr, (drop_S _ _ _ Hs). cbn [take flat_map blink].
      rewrite <- !app_assoc. reflexivity.
Qed.

Lemma playSequence_spec
    (sequence : list Z) (d st : Z) (w : World)
    (Hd : 0 <= d < Z.of_nat (length sequence))
    (Hsym : forall j s, (j < Z.to_nat d)%nat -> sequence !! j = Some s ->
                        0 <= s < NUM_KEYS)
    (Hrand : 0 <= rand_src w (rand_calls w)) :
  let sym := Z.rem (rand_src w (rand_calls w)) NUM_KEYS in
  let sequence' := <[Z.to_nat d := sym]> sequence in
  let base := uint8 (Z.land (P1OUT w) (Z.lnot LED_BITS)) in
  exists w',
    playSequence sequence d st w = Done ((sequence', d, CHECSEQ), w') /\
    0 <= sym < NUM_KEYS /\
    sequence' !! Z.to_nat d = Some sym /\
    rand_calls w' = S (rand_calls w) /\ rand_src w' = rand_src w /\
    polls w' = polls w /\
    trace w' = trace w
               ++ [EvP1OUT base; EvClear; EvDraw "Playing" 51 24;
                   EvDraw "Sequence!" 51 40; EvFlush]
               ++ flat_map (blink base (getSpeed d))
                           (take (S (Z.to_nat d)) sequence').
Proof.
  intros sym sequence' base.
  assert (Hsymr : 0 <= sym < NUM_KEYS).
  { apply Z.rem_bound_pos; [exact Hrand | reflexivity]. }
  assert (Hd' : sequence' !! Z.to_nat d = Some sym).
  { apply list_lookup_insert_eq. lia. }
  unfold playSequence. run. unfold array_set.
  destruct (Z.leb_spec 0 d); [|lia].
  destruct (Z.ltb_spec d (Z.of_nat (length sequence))); [|lia].
  cbn [andb]. cbv iota. cbn [bind].
  replace (Z.to_nat (d + 1)) with (S (Z.to_nat d)) by lia.
  fold sym. fold sequence'. fold base.
  match goal with |- context [playLoop _ _ _ _ ?w0] =>
    destruct (playLoop_spec (S (Z.to_nat d)) 0 sequence' d w0 (P1OUT w))
      as (w' & Hrun & HP' & Htr & Hr & Hc & Hp)
  end.
  - reflexivity.
  - intros j Hj. destruct (decide (j = Z.to_nat d)) as [->|Hne].
    + exists sym. auto.
    + assert (Hlt : (j < length sequence)%nat) by lia.
      apply lookup_lt_is_Some in Hlt as [s Hs].
      exists s. unfold sequence'. rewrite list_lookup_insert_ne by lia.
      split; [exact Hs|]. apply (Hsym j s); [lia | exact Hs].
  - cbn [P1OUT trace rand_src rand_calls polls] in HP', Htr, Hr, Hc, Hp.
    change (Z.of_nat 0) with 0 in Hrun. rewrite Hrun. cbv iota. run.
    exists w'. split; [reflexivity|].
    repeat split; try (assumption || lia).
    rewrite Htr, drop_0. fold base. rewrite <- !app_assoc. reflexivity.
Qed.

(** C5. For every difficulty d inside the array, with valid symbols
    stored below d, playSequence draws exactly one value from rand,
    stores its remainder modulo NUM_KEYS at index d, then lights and
    clears the pads of the stored symbols 0 to d in order, every wait
    being getSpeed d, and returns with the state CHECSEQ and the
    difficulty unchanged. *)
Theorem playSequence_draws_stores_plays
    (sequence : list Z) (d st : Z) (w : World)
    (Hd : 0 <= d < Z.of_nat (length sequence))
    (Hsym : forall j s, (j < Z.to_nat d)%nat -> sequence !! j = Some s ->
                        0 <= s < NUM_KEYS)
    (Hrand : 0 <= rand_src w (rand_calls w)) :
  let sym := Z.rem (rand_src w (rand_calls w)) NUM_KEYS in
  let sequence' := <[Z.to_nat d := sym]> sequence in
  let base := uint8 (Z.land (P1OUT w) (Z.lnot LED_BITS)) in
  exists w',
    playSequence sequence d st w = Done ((sequence', d, CHECSEQ), w') /\
    0 <= sym < NUM_KEYS /\
    sequence' !! Z.to_nat d = Some sym /\
    rand_calls w' = S (rand_calls w) /\ rand_src w' = rand_src w /\
    polls w' = polls w /\
    trace w' = trace w
               ++ [EvP1OUT base; EvClear; EvDraw "Playing" 51 24;
                   EvDraw "Sequence!" 51 40; EvFlush]
               ++ flat_map (blink base (getSpeed d))
                           (take (S (Z.to_nat d)) sequence').
Proof. exact (playSequence_spec sequence d st w Hd Hsym Hrand). Qed.

Lemma playSequence_draws_stores_plays_witness :
  exists w',
    playSequence ([2; 4; 1] ++ replicate 61 0) 2 PLAYSEQ
                 (mkWorld 255 [] (fun _ => 13) 0 [])
    = Done ((<[2%nat := 3]> ([2; 4; 1] ++ replicate 61 0), 2, CHECSEQ), w') /\
    rand_calls w' = 1%nat /\
    trace w' = [EvP1OUT 193; EvClear; EvDraw "Playing" 51 24;
                EvDraw "Sequence!" 51 40; EvFlush]
               ++ flat_map (blink 193 2) [2; 4; 3].
Proof.
  destruct (playSequence_draws_stores_plays ([2; 4; 1] ++ replicate 61 0) 2 PLAYSEQ
              (mkWorld 255 [] (fun _ => 13) 0 []))
    as (w' & Hrun & _ & _ & Hc & _ & _ & Htr).
  - cbn. lia.
  - intros [|[|j]] s Hj; [| |lia]; cbn; intros [= <-]; unfold NUM_KEYS; lia.
  - cbn. lia.
  - exists w'. split; [exact Hrun|]. split; [exact Hc | exact Htr].
Defined.

(** ** Rounds *)

Lemma main_iter_playseq_inv l w l' w' :
  state l = PLAYSEQ -> main_iter l w = Done (l', w') ->
  0 <= diff l < Z.of_nat (length (givenSeq l)) /\
  state l' = CHECSEQ /\ diff l' = diff l /\
  givenSeq l' = <[Z.to_nat (diff l) := Z.rem (rand_src w (rand_calls w)) NUM_KEYS]>
                  (givenSeq l) /\
  rand_src w' = rand_src w /\ rand_calls w' = S (rand_calls w) /\ polls w' = polls w.
Proof.
  intros Hst Hrun. unfold main_iter in Hrun. rewrite Hst in Hrun.
  change (PLAYSEQ =? WELCOME) with false in Hrun.
  change (PLAYSEQ =? PLAYSEQ) with true in Hrun. cbv iota in Hrun.
  apply bind_inv in Hrun as ([[sq d] st] & w1 & Hplay & Hrun).
  apply playSequence_inv in Hplay as (Hd & -> & -> & -> & Hr & Hc & Hp).
  cbn in Hrun. injection Hrun as <- <-. cbn. auto 10.
Qed.

Lemma main_iter_checseq_inv l w l' w' :
  state l = CHECSEQ -> main_iter l w = Done (l', w') ->
  givenSeq l' = givenSeq l /\
  rand_src w' = rand_src w /\ rand_calls w' = rand_calls w /\
  ((state l' = ERROR /\ diff l' = diff l) \/
   (state l' = PLAYSEQ /\ diff l' = diff l + 1 /\ diff l < MAX_SEQ_LENGTH) \/
   (state l' = CONGRATS /\ diff l' = diff l /\ MAX_SEQ_LENGTH <= diff l)).
Proof.
  intros Hst Hrun. unfold main_iter in Hrun. rewrite Hst in Hrun.
  change (CHECSEQ =? WELCOME) with false in Hrun.
  change (CHECSEQ =? PLAYSEQ) with false in Hrun.
  change (CHECSEQ =? CHECSEQ) with true in Hrun. cbv iota in Hrun.
  apply bind_inv in Hrun as ([[sq d] st] & w1 & Hchk & Hrun).
  apply checkSequence_inv in Hchk as (-> & Hr & Hc & Hcase).
  cbn in Hrun. injection Hrun as <- <-. cbn. auto.
Qed.

Lemma correct_rounds_inv n l w l' w' :
  diff l = 0 ->
  length (givenSeq l) = Z.to_nat MAX_SEQ_LENGTH ->
  correct_rounds n l w l' w' ->
  diff l' = Z.of_nat n /\
  length (givenSeq l') = Z.to_nat MAX_SEQ_LENGTH /\
  (n <= Z.to_nat MAX_SEQ_LENGTH)%nat /\
  take n (givenSeq l') = drawn w n /\
  rand_src w' = rand_src w /\ rand_calls w' = (rand_calls w + n)%nat.
Proof.
  intros Hd0 Hlen Hrounds.
  induction Hrounds as [l w | n l w l1 w1 l2 w2 l3 w3 _ IH Hst Hplay Hcheck Hok].
  - rewrite Hd0. repeat split; auto; lia.
  - destruct (IH Hd0 Hlen) as (Hd1 & Hlen1 & Hn & Hseq & Hr1 & Hc1).
    apply (main_iter_playseq_inv _ _ _ _ Hst) in Hplay
      as (Hin & Hst2 & Hd2 & Hseq2 & Hr2 & Hc2 & _).
    apply (main_iter_checseq_inv _ _ _ _ Hst2) in Hcheck
      as (Hseq3 & Hr3 & Hc3 & Hcase).
    rewrite Hd1 in Hin, Hseq2. rewrite Nat2Z.id in Hseq2.
    assert (Hlen2 : length (givenSeq l2) = Z.to_nat MAX_SEQ_LENGTH).
    { rewrite Hseq2, length_insert. exact Hlen1. }
    assert (Hd3 : diff l3 = Z.of_nat (S n)).
    { destruct Hcase as [[? _]|[(_ & ? & _)|(_ & _ & ?)]]; [contradiction|lia|lia]. }
    split; [exact Hd3|]. split; [congruence|]. split; [lia|].
    split; [|split; [congruence | lia]].
    rewrite Hseq3, Hseq2.
    rewrite (take_S_r _ _ (Z.rem (rand_src w1 (rand_calls w1)) NUM_KEYS))
      by (apply list_lookup_insert_eq; lia).
    rewrite take_insert_ge by lia. rewrite Hseq.
    unfold drawn, drawn_from. rewrite seq_S, map_app. cbn [map Nat.add].
    rewrite Hr1, Hc1. reflexivity.
Qed.

(** In every reachable state the array is well formed, as long as
    [rand] returns non-negative values. *)
Lemma main_init_array_ok : array_ok main_init.
Proof.
  split; [apply length_replicate|].
  apply Forall_replicate. unfold NUM_KEYS. lia.
Qed.

Lemma main_iter_array_ok l w l' w' :
  (forall k, 0 <= rand_src w k) ->
  array_ok l -> main_iter l w = Done (l', w') -> array_ok l'.
Proof.
  intros Hrand [Hlen Hall] Hrun. unfold array_ok.
  destruct (Z.eq_dec (state l) PLAYSEQ) as [Hst|Hst].
  - apply (main_iter_playseq_inv _ _ _ _ Hst) in Hrun as (_ & _ & _ & -> & _).
    split; [rewrite length_insert; exact Hlen|].
    apply Forall_insert; [exact Hall|].
    apply Z.rem_bound_pos; [apply Hrand | reflexivity].
  - apply (main_iter_frame _ _ _ _ Hst) in Hrun as (-> & _). split; assumption.
Qed.

Lemma main_loop_array_ok : forall n l w l' w',
  (forall k, 0 <= rand_src w k) ->
  array_ok l -> main_loop n l w = Done (l', w') -> array_ok l'.
Proof.
  induction n as [|n IH]; intros l w l' w' Hrand Hok Hrun.
  - cbn in Hrun. injection Hrun as <- _. exact Hok.
  - cbn [main_loop] in Hrun.
    apply bind_inv in Hrun as (l1 & w1 & Hiter & Hrun).
    assert (Hsrc : rand_src w1 = rand_src w).
    { destruct (Z.eq_dec (state l) PLAYSEQ) as [Hst|Hst].
      - apply (main_iter_playseq_inv _ _ _ _ Hst) in Hiter. tauto.
      - apply (main_iter_frame _ _ _ _ Hst) in Hiter. tauto. }
    eapply (IH l1 w1); [|eapply main_iter_array_ok; eassumption|exact Hrun].
    intros k. rewrite Hsrc. apply Hrand.
Qed.

(** C6. Starting from difficulty 0 with the 64-element array, after N
    rounds in a row whose check found every touch right, the difficulty
    is N, the stored sequence has N symbols, and they are, position by
    position, the remainders modulo NUM_KEYS of the N values rand
    returned, one per playSequence, in the order drawn. *)
Theorem rounds_store_the_drawn_symbols
    (N : nat) (l : Locals) (w : World) (l' : Locals) (w' : World)
    (Hd0 : diff l = 0)
    (Hlen : length (givenSeq l) = Z.to_nat MAX_SEQ_LENGTH)
    (Hrounds : correct_rounds N l w l' w') :
  diff l' = Z.of_nat N /\
  length (stored l') = N /\
  stored l' = drawn w N /\
  rand_calls w' = (rand_calls w + N)%nat.
Proof.
  destruct (correct_rounds_inv N l w l' w' Hd0 Hlen Hrounds)
    as (Hd & Hlen' & HN & Hseq & _ & Hc).
  unfold stored. rewrite Hd, Nat2Z.id.
  repeat split; try assumption.
  rewrite length_take. lia.
Qed.

Lemma rounds_store_the_drawn_symbols_witness :
  exists l' w',
    correct_rounds 2 first_round two_round_world l' w' /\
    diff l' = 2 /\ stored l' = [3; 0].
Proof.
  assert (Hrounds : exists l' w', correct_rounds 2 first_round two_round_world l' w').
  { eexists. eexists.
    eapply rounds_S;
      [eapply rounds_S;
         [apply rounds_O
         |reflexivity
         |vm_compute; reflexivity
         |vm_compute; reflexivity
         |discriminate]
      |reflexivity
      |vm_compute; reflexivity
      |vm_compute; reflexivity
      |discriminate]. }
  destruct Hrounds as (l' & w' & Hrounds).
  destruct (rounds_store_the_drawn_symbols 2 first_round two_round_world l' w'
              eq_refl eq_refl Hrounds) as (Hd & _ & Hs & _).
  exists l', w'. split; [exact Hrounds|]. split; [exact Hd | exact Hs].
Defined.

(** ** A player who never errs *)

Lemma poll_button_pad_of s : 0 <= s < NUM_KEYS -> poll_button (Some (pad_of s)) = Some s.
Proof.
  intros Hs. destruct (led_of_cases s Hs) as [->|[->|[->|[->| ->]]]]; reflexivity.
Qed.

Lemma presses_touches ss rest :
  Forall (fun s => 0 <= s < NUM_KEYS) ss ->
  presses (touches ss ++ rest) = ss ++ presses rest.
Proof.
  induction 1 as [|s ss Hs _ IH]; [reflexivity|].
  cbn [touches map app presses]. rewrite (poll_button_pad_of s Hs).
  f_equal. exact IH.
Qed.

Lemma drop_presses_touches ss rest :
  Forall (fun s => 0 <= s < NUM_KEYS) ss ->
  drop_presses (length ss) (touches ss ++ rest) = rest.
Proof.
  induction 1 as [|s ss Hs _ IH]; [reflexivity|].
  cbn [touches map app length].
  rewrite (drop_presses_S _ _ s (touches ss ++ rest)); [exact IH|].
  cbn [next_press]. rewrite (poll_button_pad_of s Hs). reflexivity.
Qed.

(** One round won: the PLAYSEQ turn followed by a CHECSEQ turn in which
    the touches replay the stored symbols. *)
Lemma winning_round l w rest :
  state l = PLAYSEQ ->
  array_ok l ->
  0 <= diff l < MAX_SEQ_LENGTH ->
  0 <= rand_src w (rand_calls w) ->
  polls w = touches (take (S (Z.to_nat (diff l)))
                          (<[Z.to_nat (diff l) :=
                               Z.rem (rand_src w (rand_calls w)) NUM_KEYS]> (givenSeq l)))
            ++ rest ->
  exists l2 w2 l3 w3,
    main_iter l w = Done (l2, w2) /\
    main_iter l2 w2 = Done (l3, w3) /\
    state l3 = PLAYSEQ /\ diff l3 = diff l + 1 /\ polls w3 = rest.
Proof.
  intros Hst [Hlen Hall] Hd Hrand Hpolls.
  set (d := Z.to_nat (diff l)) in *.
  set (sym := Z.rem (rand_src w (rand_calls w)) NUM_KEYS) in *.
  set (sequence' := <[d := sym]> (givenSeq l)) in *.
  assert (Hlen64 : length (givenSeq l) = 64%nat) by exact Hlen.
  destruct (playSequence_spec (givenSeq l) (diff l) (state l) w)
    as (w2 & Hplay & Hsym & _ & _ & _ & Hp2 & _).
  { unfold MAX_SEQ_LENGTH in Hd. lia. }
  { intros j s _ Hs. exact (proj1 (Forall_lookup _ _) Hall j s Hs). }
  { exact Hrand. }
  fold d sym sequence' in Hplay.
  assert (Hall' : Forall (fun s => 0 <= s < NUM_KEYS) (take (S d) sequence')).
  { apply Forall_take, Forall_insert; assumption. }
  assert (Hlen' : length (take (S d) sequence') = S d).
  { rewrite length_take. unfold sequence'. rewrite length_insert.
    unfold MAX_SEQ_LENGTH in Hd. lia. }
  destruct (checkSequence_all_correct sequence' (diff l) CHECSEQ w2)
    as (w3 & Hcheck & Hp3 & _).
  { lia. }
  { intros j Hj. fold d in Hj.
    rewrite Hp2, Hpolls, (presses_touches _ _ Hall').
    rewrite lookup_app_l by lia. rewrite lookup_take_lt by lia.
    assert (Hj' : (j < length sequence')%nat).
    { unfold sequence'. rewrite length_insert.
      unfold MAX_SEQ_LENGTH in Hd. lia. }
    apply lookup_lt_is_Some in Hj' as [s Hs]. eauto. }
  pose proof (drop_presses_touches _ rest Hall') as Hdrop.
  rewrite Hlen' in Hdrop.
  fold d in Hp3. rewrite Hp2, Hpolls, Hdrop in Hp3.
  destruct (Z.ltb_spec (diff l) MAX_SEQ_LENGTH) as [_|]; [|lia].
  exists (mkLocals CHECSEQ (button l) sequence' (diff l)), w2,
         (mkLocals PLAYSEQ (button l) sequence' (diff l + 1)), w3.
  split.
  - rewrite Hst in Hplay. unfold main_iter. rewrite Hst.
    change (PLAYSEQ =? WELCOME) with false.
    change (PLAYSEQ =? PLAYSEQ) with true. cbv iota. cbn [bind].
    rewrite Hplay. reflexivity.
  - split; [|auto].
    unfold main_iter. cbn [state givenSeq diff button].
    change (CHECSEQ =? WELCOME) with false.
    change (CHECSEQ =? PLAYSEQ) with false.
    change (CHECSEQ =? CHECSEQ) with true. cbv iota. cbn [bind].
    rewrite Hcheck. reflexivity.
Qed.

Lemma correct_rounds_array_ok n l w l' w' :
  (forall k, 0 <= rand_src w k) ->
  array_ok l -> correct_rounds n l w l' w' -> array_ok l'.
Proof.
  intros Hrand Hok Hrounds.
  assert (Hboth : array_ok l' /\ rand_src w' = rand_src w).
  { induction Hrounds as [l w | n l w l1 w1 l2 w2 l3 w3 _ IH Hst Hplay Hcheck _].
    - auto.
    - destruct (IH Hrand Hok) as [Hok1 Hsrc1].
      assert (Hrand1 : forall k, 0 <= rand_src w1 k)
        by (intros k; rewrite Hsrc1; apply Hrand).
      pose proof (main_iter_array_ok _ _ _ _ Hrand1 Hok1 Hplay) as Hok2.
      pose proof (main_iter_playseq_inv _ _ _ _ Hst Hplay)
        as (_ & Hst2 & _ & _ & Hsrc2 & _).
      assert (Hrand2 : forall k, 0 <= rand_src w2 k)
        by (intros k; rewrite Hsrc2; apply Hrand1).
      split; [exact (main_iter_array_ok _ _ _ _ Hrand2 Hok2 Hcheck)|].
      pose proof (main_iter_checseq_inv _ _ _ _ Hst2 Hcheck) as (_ & Hsrc3 & _).
      congruence. }
  exact (proj1 Hboth).
Qed.

Lemma drawn_from_S rs rc n :
  drawn_from rs rc (S n) = drawn_from rs rc n ++ [Z.rem (rs (rc + n)%nat) NUM_KEYS].
Proof. unfold drawn_from. rewrite seq_S, map_app. reflexivity. Qed.

(** Against any source of non-negative values the first 64 rounds can
    all be won. *)
Lemma winning_rounds : forall (n : nat) l w rest,
  (n <= Z.to_nat MAX_SEQ_LENGTH)%nat ->
  state l = PLAYSEQ -> diff l = 0 -> array_ok l ->
  (forall k, 0 <= rand_src w k) ->
  polls w = winning_polls (rand_src w) (rand_calls w) n ++ rest ->
  exists l' w',
    correct_rounds n l w l' w' /\ state l' = PLAYSEQ /\ polls w' = rest.
Proof.
  induction n as [|n IH]; intros l w rest Hn Hst Hd0 Hok Hrand Hpolls.
  - exists l, w. split; [constructor | auto].
  - cbn [winning_polls] in Hpolls. rewrite <- app_assoc in Hpolls.
    destruct (IH l w _ ltac:(lia) Hst Hd0 Hok Hrand Hpolls)
      as (l1 & w1 & Hrounds & Hst1 & Hp1).
    destruct (correct_rounds_inv n l w l1 w1 Hd0 (proj1 Hok) Hrounds)
      as (Hd1 & Hlen1 & _ & Hseq1 & Hsrc1 & Hcalls1).
    pose proof (correct_rounds_array_ok _ _ _ _ _ Hrand Hok Hrounds) as Hok1.
    destruct (winning_round l1 w1 rest Hst1 Hok1) as (l2 & w2 & l3 & w3 & Hplay & Hcheck & Hst3 & _ & Hp3).
    + rewrite Hd1. unfold MAX_SEQ_LENGTH in *. lia.
    + rewrite Hsrc1. apply Hrand.
    + rewrite Hp1, Hd1, Nat2Z.id. f_equal. f_equal.
      rewrite (take_S_r _ _ (Z.rem (rand_src w1 (rand_calls w1)) NUM_KEYS)).
      * rewrite take_insert_ge by lia. rewrite Hseq1.
        rewrite drawn_from_S, Hsrc1, Hcalls1. reflexivity.
      * apply list_lookup_insert_eq. rewrite Hlen1. lia.
    + exists l3, w3. split; [|auto].
      eapply rounds_S; try eassumption. rewrite Hst3. discriminate.
Qed.

Lemma main_loop_S n l w :
  main_loop (S n) l w = bind (main_iter l) (main_loop n) w.
Proof. reflexivity. Qed.

(** The turns of [n] won rounds are the first [2 * n] turns of the loop. *)
Lemma correct_rounds_main_loop n l w l' w' :
  correct_rounds n l w l' w' ->
  forall m, main_loop (2 * n + m) l w = main_loop m l' w'.
Proof.
  induction 1 as [l w | n l w l1 w1 l2 w2 l3 w3 _ IH Hst Hplay Hcheck _]; intros m.
  - reflexivity.
  - replace (2 * S n + m)%nat with (2 * n + S (S m))%nat by lia.
    rewrite IH, !main_loop_S.
    rewrite (bind_Done _ _ _ _ _ Hplay). rewrite main_loop_S.
    rewrite (bind_Done _ _ _ _ _ Hcheck). reflexivity.
Qed.

(** From power-on, a start touch and 64 rounds without an error lead
    the loop into a PLAYSEQ turn at difficulty 64. *)
Lemma main_overruns_array w :
  (forall k, 0 <= rand_src w k) ->
  polls w = Some PAD1 :: winning_polls (rand_src w) (rand_calls w)
                                       (Z.to_nat MAX_SEQ_LENGTH) ->
  main 130 w = Undefined.
Proof.
  intros Hrand Hpolls.
  unfold main, initSys, configTouchPadLEDs, configDisplay. run.
  match goal with |- main_loop _ _ ?w0 = _ => set (w1 := w0) end.
  change 130%nat with (S (2 * Z.to_nat MAX_SEQ_LENGTH + 1)). rewrite main_loop_S.
  pose proof (main_iter_welcome main_init w1 eq_refl) as Hw.
  cbn [polls w1] in Hw. rewrite Hpolls in Hw. cbn [after_start] in Hw.
  rewrite bool_decide_eq_true_2 in Hw by reflexivity.
  destruct Hw as (w2 & Hiter & Hp2 & Hsrc2 & Hcalls2).
  rewrite (bind_Done _ _ _ _ _ Hiter).
  cbn [rand_src rand_calls w1] in Hsrc2, Hcalls2.
  destruct (winning_rounds (Z.to_nat MAX_SEQ_LENGTH)
              (mkLocals PLAYSEQ X (givenSeq main_init) (diff main_init)) w2 [])
    as (l3 & w3 & Hrounds & Hst3 & _).
  - lia.
  - reflexivity.
  - reflexivity.
  - exact main_init_array_ok.
  - intros k. rewrite Hsrc2. apply Hrand.
  - rewrite Hp2, Hsrc2, Hcalls2, app_nil_r. reflexivity.
  - rewrite (correct_rounds_main_loop _ _ _ _ _ Hrounds 1).
    destruct (correct_rounds_inv (Z.to_nat MAX_SEQ_LENGTH)
                (mkLocals PLAYSEQ X (givenSeq main_init) (diff main_init)) w2 l3 w3
                eq_refl (proj1 main_init_array_ok) Hrounds)
      as (Hd3 & Hlen3 & _).
    rewrite main_loop_S. apply bind_Undefined.
    unfold main_iter. rewrite Hst3.
    change (PLAYSEQ =? WELCOME) with false.
    change (PLAYSEQ =? PLAYSEQ) with true. cbv iota.
    apply bind_Undefined, playSequence_out_of_bounds.
    rewrite Hlen3, Hd3. lia.
Qed.

(** C1, at the last level.  With difficulty 63 and all 64 touches
    right, checkSequence stores difficulty 64 and the state PLAYSEQ, not
    CONGRATS; playSequence then writes element 64 of the 64-element
    array.  The program gets there from power-on: after the start touch
    and 64 rounds without an error, turn 130 of the main loop is that
    write. *)
Theorem checkSequence_capacity_off_by_one :
  (exists w',
     checkSequence (givenSeq main_init) 63 CHECSEQ
                   (quiet_world (replicate 64 (Some PAD1)))
     = Done ((givenSeq main_init, MAX_SEQ_LENGTH, PLAYSEQ), w') /\
     forall st, playSequence (givenSeq main_init) MAX_SEQ_LENGTH st w' = Undefined) /\
  (exists touched, main 130 (quiet_world touched) = Undefined).
Proof.
  split.
  - destruct (checkSequence_all_correct (givenSeq main_init) 63 CHECSEQ
                (quiet_world (replicate 64 (Some PAD1)))) as (w' & Hrun & _).
    + lia.
    + intros j Hj. exists 0. cbn [polls quiet_world givenSeq main_init].
      rewrite presses_replicate_PAD1.
      split; apply lookup_replicate_2; unfold MAX_SEQ_LENGTH; lia.
    + exists w'. split; [exact Hrun|].
      intros st. apply playSequence_out_of_bounds.
      cbn [givenSeq main_init]. rewrite length_replicate. unfold MAX_SEQ_LENGTH. lia.
  - exists (Some PAD1 :: winning_polls (fun k => Z.of_nat k) 0 (Z.to_nat MAX_SEQ_LENGTH)).
    apply main_overruns_array.
    + intros k. cbn. lia.
    + reflexivity.
Qed.

(** * Further properties *)

(** ** The software delay *)

Lemma swDelay_inner_spec : forall fuel i n,
  0 <= i < 65536 -> (Z.to_nat i < fuel)%nat ->
  swDelay_inner fuel i n = Some (n + i).
Proof.
  induction fuel as [|fuel IH]; intros i n Hi Hfuel; [lia|].
  cbn [swDelay_inner]. destruct (Z.ltb_spec 0 i).
  - assert (Hw : uint16 (i - 1) = i - 1) by (apply Z.mod_small; lia).
    rewrite Hw, IH by lia. f_equal. lia.
  - f_equal. lia.
Qed.

Lemma swDelay_outer_spec : forall fuel j numLoops n,
  0 <= j <= numLoops -> numLoops < 65536 ->
  (Z.to_nat (numLoops - j) < fuel)%nat ->
  swDelay_outer fuel j numLoops n = Some (n + 50000 * (numLoops - j)).
Proof.
  induction fuel as [|fuel IH]; intros j numLoops n Hj Hn Hfuel; [lia|].
  cbn [swDelay_outer].
  assert (HN : uint16 numLoops = numLoops) by (apply Z.mod_small; lia).
  rewrite HN. destruct (Z.ltb_spec j numLoops).
  - change (uint16 50000) with 50000.
    rewrite swDelay_inner_spec by lia.
    assert (Hw : uint16 (j + 1) = j + 1) by (apply Z.mod_small; lia).
    rewrite Hw, IH by lia. f_equal. lia.
  - f_equal. lia.
Qed.

Lemma swDelay_makes_ok_aux numLoops :
  0 <= numLoops <= 127 -> swDelay_decrements numLoops = Some (50000 * numLoops).
Proof.
  intros Hrange. unfold swDelay_decrements.
  assert (HN : uint16 numLoops = numLoops) by (apply Z.mod_small; lia).
  rewrite HN, swDelay_outer_spec by lia. f_equal. lia.
Qed.

(** X1. swDelay(numLoops), for a count that fits a char of either
    signedness, runs to its end and makes exactly 50000 decrements per
    loop: neither 16-bit counter wraps. *)
Theorem swDelay_makes_50000_per_loop (numLoops : Z)
    (Hrange : 0 <= numLoops <= 127) :
  swDelay_decrements numLoops = Some (50000 * numLoops).
Proof. exact (swDelay_makes_ok_aux numLoops Hrange). Qed.

Lemma swDelay_makes_50000_per_loop_witness :
  swDelay_decrements 3 = Some (50000 * 3).
Proof. apply (swDelay_makes_50000_per_loop 3). lia. Defined.

(** X2. The pause playSequence makes after each change of an LED is
    100000 decrements below difficulty 13, 50000 from 13 to 25, and none
    at all from 26 on: there the delay loop is not entered. *)
Theorem playback_pause_by_difficulty (d : Z) :
  swDelay_decrements (getSpeed d)
  = Some (if d <? 13 then 100000 else if d <? 26 then 50000 else 0).
Proof.
  destruct (getSpeed_cases d) as [[H ->]|[[H ->]|[H ->]]].
  - destruct (Z.ltb_spec d 13); [|lia].
    rewrite swDelay_makes_ok_aux by lia. reflexivity.
  - destruct (Z.ltb_spec d 13); [lia|]. destruct (Z.ltb_spec d 26); [|lia].
    rewrite swDelay_makes_ok_aux by lia. reflexivity.
  - destruct (Z.ltb_spec d 13); [lia|]. destruct (Z.ltb_spec d 26); [lia|].
    rewrite swDelay_makes_ok_aux by lia. reflexivity.
Qed.

(** ** The LED port, bit by bit *)

Lemma LED_BITS_testbit n :
  0 <= n -> Z.testbit LED_BITS n = (1 <=? n) && (n <=? 5).
Proof.
  intros Hn. destruct (Z.lt_ge_cases n 8) as [Hlt|Hge].
  - assert (Hc : n = 0 \/ n = 1 \/ n = 2 \/ n = 3 \/ n = 4 \/ n = 5 \/ n = 6 \/ n = 7)
      by lia.
    destruct Hc as [->|[->|[->|[->|[->|[->|[->| ->]]]]]]]; reflexivity.
  - change LED_BITS with (uint8 LED_BITS). rewrite uint8_testbit.
    destruct (Z.ltb_spec n 8); [lia|].
    destruct (Z.leb_spec n 5); [lia|]. rewrite andb_false_r. reflexivity.
Qed.

Lemma led_of_power s : 0 <= s < NUM_KEYS -> led_of s = 2 ^ (s + 1).
Proof.
  intros Hs. destruct (led_of_cases s Hs) as [->|[->|[->|[->| ->]]]]; reflexivity.
Qed.

Lemma led_of_testbit s n :
  0 <= s < NUM_KEYS -> 0 <= n -> Z.testbit (led_of s) n = (n =? s + 1).
Proof.
  intros Hs Hn. rewrite (led_of_power s Hs).
  destruct (Z.eqb_spec n (s + 1)) as [->|Hne].
  - apply Z.pow2_bits_true. lia.
  - apply Z.pow2_bits_false. lia.
Qed.

Ltac port_bits :=
  apply Z.bits_inj'; intros ?n ?Hn; unfold leds_cleared;
  repeat first
    [ rewrite uint8_testbit | rewrite Z.land_spec | rewrite Z.lor_spec
    | rewrite Z.lnot_spec by lia | rewrite LED_BITS_testbit by lia
    | rewrite led_of_testbit by lia | rewrite Z.bits_0 ].

Lemma leds_cleared_idem p : leds_cleared (leds_cleared p) = leds_cleared p.
Proof.
  port_bits.
  destruct (n <? 8), (Z.testbit p n), ((1 <=? n) && (n <=? 5)); reflexivity.
Qed.

Lemma lit_pad_bits p s :
  0 <= s < NUM_KEYS ->
  Z.land (uint8 (Z.lor (leds_cleared p) (led_of s))) LED_BITS = led_of s.
Proof.
  intros Hs. port_bits.
  destruct (Z.eqb_spec n (s + 1)) as [->|Hne].
  - destruct (Z.ltb_spec (s + 1) 8); [|unfold NUM_KEYS in Hs; lia].
    destruct (Z.leb_spec 1 (s + 1)); [|lia].
    destruct (Z.leb_spec (s + 1) 5); [|unfold NUM_KEYS in Hs; lia].
    cbn. rewrite orb_true_r. reflexivity.
  - rewrite orb_false_r.
    destruct (n <? 8), (Z.testbit p n), ((1 <=? n) && (n <=? 5)); reflexivity.
Qed.

Lemma lit_pad_rest p s :
  0 <= s < NUM_KEYS ->
  leds_cleared (uint8 (Z.lor (leds_cleared p) (led_of s))) = leds_cleared p.
Proof.
  intros Hs. port_bits.
  destruct (Z.eqb_spec n (s + 1)) as [->|Hne].
  - destruct (Z.leb_spec 1 (s + 1)); [|lia].
    destruct (Z.leb_spec (s + 1) 5); [|unfold NUM_KEYS in Hs; lia].
    cbn. rewrite !andb_false_r. reflexivity.
  - rewrite orb_false_r.
    destruct (n <? 8), (Z.testbit p n), ((1 <=? n) && (n <=? 5)); reflexivity.
Qed.

(** X3. configTouchPadLEDs makes pins 1 to 5 of port 1 plain outputs
    driven low (select bit 0, direction bit 1, output bit 0) and leaves
    pins 0, 6 and 7 of the three registers as they were; the output
    register it leaves is the one the modelled set-up stores. *)
Theorem configTouchPadLEDs_sets_pins_1_to_5 (sel dir out n : Z)
    (Hn : 0 <= n < 8) :
  let '(sel', dir', out') := configTouchPadLEDs_regs sel dir out in
  (if (1 <=? n) && (n <=? 5)
   then Z.testbit sel' n = false /\ Z.testbit dir' n = true /\
        Z.testbit out' n = false
   else Z.testbit sel' n = Z.testbit sel n /\ Z.testbit dir' n = Z.testbit dir n /\
        Z.testbit out' n = Z.testbit out n) /\
  (forall w, P1OUT w = out ->
     exists w', configTouchPadLEDs w = Done (tt, w') /\ P1OUT w' = out').
Proof.
  unfold configTouchPadLEDs_regs. split.
  - rewrite !uint8_testbit, !Z.land_spec, Z.lor_spec, !Z.lnot_spec,
      !LED_BITS_testbit by lia.
    destruct (Z.ltb_spec n 8); [|lia].
    destruct ((1 <=? n) && (n <=? 5)); cbn; rewrite ?andb_true_r, ?andb_false_r,
      ?orb_true_r, ?orb_false_r; auto.
  - intros w <-. unfold configTouchPadLEDs. run. eexists. split; reflexivity.
Qed.

Lemma configTouchPadLEDs_sets_pins_1_to_5_witness :
  let '(sel', dir', out') := configTouchPadLEDs_regs 255 0 255 in
  Z.testbit sel' 3 = false /\ Z.testbit dir' 3 = true /\ Z.testbit out' 3 = false.
Proof.
  exact (proj1 (configTouchPadLEDs_sets_pins_1_to_5 255 0 255 3 ltac:(lia))).
Defined.

(** ** What getButton returns and what it leaves on the port *)

Lemma shown_app evs1 evs2 : shown (evs1 ++ evs2) = shown evs1 ++ shown evs2.
Proof. apply omap_app. Qed.

Lemma echoes_refl w : echoes w w [].
Proof. exists []. split; [symmetry; apply app_nil_r | reflexivity]. Qed.

Lemma echoes_trans w1 w2 w3 bs1 bs2 :
  echoes w1 w2 bs1 -> echoes w2 w3 bs2 -> echoes w1 w3 (bs1 ++ bs2).
Proof.
  intros (e1 & H1 & <-) (e2 & H2 & <-). exists (e1 ++ e2).
  split; [rewrite H2, H1, app_assoc; reflexivity | apply shown_app].
Qed.

Ltac echo_events :=
  unfold echoes; cbn [trace];
  first [ exists []; split; [symmetry; apply app_nil_r | reflexivity]
        | eexists; split; [rewrite <- ?app_assoc; reflexivity | reflexivity] ].

Lemma scanKeys_port k bp w :
  exists w',
    scanKeys (Z.to_nat NUM_KEYS) 0 k bp w
    = Done (match pad_index k with Some i => i | None => bp end, w') /\
    same_inputs w w' /\
    P1OUT w' = match pad_index k with
               | Some i => uint8 (Z.lor (P1OUT w) (led_of i))
               | None => P1OUT w
               end /\
    echoes w w' [].
Proof.
  destruct k; eexists;
    (split; [reflexivity|]); (split; [repeat split|]);
    (split; [reflexivity | echo_events]).
Qed.

Lemma getButton_loop_cons_port fuel w p ps :
  polls w = p :: ps ->
  exists w1,
    polls w1 = ps /\ echoes w w1 [] /\
    P1OUT w1 = match poll_button p with
               | Some b => uint8 (Z.lor (leds_cleared (P1OUT w)) (led_of b))
               | None => leds_cleared (P1OUT w)
               end /\
    getButton_loop (S fuel) NULL_BUTTON w
    = match poll_button p with
      | Some b => Done (b, w1)
      | None => getButton_loop fuel NULL_BUTTON w1
      end.
Proof.
  intros Hps. cbn [getButton_loop]. run.
  unfold TI_CAPT_Buttons. run. rewrite Hps. run.
  destruct p as [k|]; cbn [poll_button]; run.
  - match goal with |- context [scanKeys _ _ _ _ ?w0] =>
      destruct (scanKeys_port k NULL_BUTTON w0)
        as (w2 & -> & (Hs1 & Hs2 & Hs3) & HP & Hecho);
      assert (Hecho0 : echoes w w0 []) by echo_events
    end.
    cbn [P1OUT polls] in HP, Hs3.
    exists w2. split; [exact Hs3|].
    split; [exact (echoes_trans _ _ _ _ _ Hecho0 Hecho)|].
    destruct (pad_index k) as [b|] eqn:Hk.
    + split; [exact HP|].
      assert (Hb := pad_index_range _ _ Hk).
      destruct (Z.eqb_spec b NULL_BUTTON) as [Hb'|_];
        [unfold NULL_BUTTON in Hb'; lia | reflexivity].
    + split; [exact HP | reflexivity].
  - match goal with |- context [(if _ then _ else _) ?w0] => exists w0 end.
    split; [reflexivity|]. split; [echo_events|].
    split; reflexivity.
Qed.

Lemma getButton_loop_port ps : forall fuel w b rest,
  polls w = ps -> (length ps < fuel)%nat ->
  next_press ps = Some (b, rest) ->
  exists w', getButton_loop fuel NULL_BUTTON w = Done (b, w') /\
             P1OUT w' = uint8 (Z.lor (leds_cleared (P1OUT w)) (led_of b)) /\
             echoes w w' [].
Proof.
  induction ps as [|p ps IH]; intros fuel w b rest Hps Hfuel Hnext;
    [discriminate|].
  destruct fuel as [|fuel]; [simpl in Hfuel; lia|].
  destruct (getButton_loop_cons_port fuel w p ps Hps) as (w1 & Hp1 & He1 & HP1 & ->).
  cbn [next_press] in Hnext. destruct (poll_button p) as [b0|].
  - injection Hnext as <- <-. exists w1. auto.
  - destruct (IH fuel w1 b rest Hp1 ltac:(simpl in Hfuel; lia) Hnext)
      as (w' & Hrun & HP' & He').
    exists w'. split; [exact Hrun|].
    split; [rewrite HP', HP1, leds_cleared_idem; reflexivity|].
    exact (echoes_trans _ _ _ _ _ He1 He').
Qed.

Lemma getButton_port w b w' :
  getButton w = Done (b, w') ->
  P1OUT w' = uint8 (Z.lor (leds_cleared (P1OUT w)) (led_of b)) /\
  echoes w w' [].
Proof.
  intros Hrun. pose proof (getButton_spec w) as Hs.
  destruct (next_press (polls w)) as [[b0 rest]|] eqn:Hn; [|congruence].
  destruct Hs as (w0 & Hg & _). rewrite Hg in Hrun. injection Hrun as <- <-.
  destruct (getButton_loop_port (polls w) (S (length (polls w))) w b0 rest
              eq_refl ltac:(lia) Hn) as (w1 & Hrun1 & HP & He).
  unfold getButton in Hg. rewrite Hg in Hrun1. injection Hrun1 as <-. auto.
Qed.

Lemma pad_index_lookup e b :
  0 <= b -> address_list !! Z.to_nat b = Some e -> pad_index e = Some b.
Proof.
  intros Hb Hl.
  assert (Hlt : (Z.to_nat b < length address_list)%nat)
    by (eapply lookup_lt_Some; exact Hl).
  cbn in Hlt.
  assert (Hc : b = 0 \/ b = 1 \/ b = 2 \/ b = 3 \/ b = 4) by lia.
  destruct Hc as [->|[->|[->|[->| ->]]]]; cbn in Hl; injection Hl as <-; reflexivity.
Qed.

Lemma pad_index_not_listed e : e ∉ address_list -> pad_index e = None.
Proof.
  unfold address_list. rewrite !not_elem_of_cons.
  destruct e; [tauto..|reflexivity].
Qed.

Lemma next_press_skip pre p rest :
  (forall a, Some a ∈ pre -> a ∉ address_list) ->
  next_press (pre ++ p :: rest) = next_press (p :: rest).
Proof.
  induction pre as [|q pre IH]; intros Hpre; [reflexivity|].
  cbn [app next_press].
  assert (Hq : poll_button q = None).
  { destruct q as [a|]; [|reflexivity]. cbn.
    apply pad_index_not_listed, Hpre. left. }
  rewrite Hq. apply IH. intros a Ha. apply Hpre. right. exact Ha.
Qed.

Lemma next_press_none ps :
  (forall a, Some a ∈ ps -> a ∉ address_list) -> next_press ps = None.
Proof.
  induction ps as [|q ps IH]; intros Hps; [reflexivity|].
  cbn [next_press].
  assert (Hq : poll_button q = None).
  { destruct q as [a|]; [|reflexivity]. cbn.
    apply pad_index_not_listed, Hps. left. }
  rewrite Hq. apply IH. intros a Ha. apply Hps. right. exact Ha.
Qed.

(** X4. getButton returns the index in address_list of the first pad
    touched: polls that report no touch, or an element that is not one
    of the five pads, are skipped; the polls after that touch are left;
    rand is not called.  When no poll reports a pad the call is still
    polling at the end of the history. *)
Theorem getButton_returns_first_pad
    (w : World) (pre rest : list (option Element)) (e : Element) (b : Z)
    (Hpolls : polls w = pre ++ Some e :: rest)
    (Hpre : forall a, Some a ∈ pre -> a ∉ address_list)
    (Hb : 0 <= b)
    (He : address_list !! Z.to_nat b = Some e) :
  (exists w', getButton w = Done (b, w') /\ polls w' = rest /\
              rand_src w' = rand_src w /\ rand_calls w' = rand_calls w) /\
  (forall w0, (forall a, Some a ∈ polls w0 -> a ∉ address_list) ->
              getButton w0 = Pending).
Proof.
  split.
  - pose proof (getButton_spec w) as Hs.
    rewrite Hpolls, (next_press_skip _ _ _ Hpre) in Hs.
    cbn [next_press poll_button] in Hs.
    rewrite (pad_index_lookup e b Hb He) in Hs. exact Hs.
  - intros w0 Hnone. pose proof (getButton_spec w0) as Hs.
    rewrite (next_press_none _ Hnone) in Hs. exact Hs.
Qed.

Lemma getButton_returns_first_pad_witness :
  exists w', getButton (quiet_world [None; Some (OTHER 7); Some PAD3; Some PAD1])
             = Done (2, w') /\ polls w' = [Some PAD1] /\
             rand_src w' = rand_src (quiet_world [None; Some (OTHER 7); Some PAD3; Some PAD1]) /\
             rand_calls w' = 0%nat.
Proof.
  apply (proj1 (getButton_returns_first_pad
                  (quiet_world [None; Some (OTHER 7); Some PAD3; Some PAD1])
                  [None; Some (OTHER 7)] [Some PAD1] PAD3 2
                  eq_refl
                  ltac:(intros a; rewrite !elem_of_cons, elem_of_nil;
                        intros [Ha|[Ha|[]]]; [discriminate Ha|];
                        injection Ha as ->; unfold address_list;
                        rewrite !not_elem_of_cons, elem_of_nil;
                        repeat split; (discriminate || tauto))
                  ltac:(lia) eq_refl)).
Defined.

(** X5. When getButton returns pad b, port 1 shows exactly the LED of
    that pad: of the five LED bits only bit b+1 is set, and the three
    other bits of the port are as they were before the call. *)
Theorem getButton_lights_the_pressed_pad
    (w : World) (b : Z) (w' : World)
    (Hrun : getButton w = Done (b, w')) :
  Z.land (P1OUT w') LED_BITS = 2 ^ (b + 1) /\
  leds_cleared (P1OUT w') = leds_cleared (P1OUT w) /\
  led_of b = 2 ^ (b + 1).
Proof.
  pose proof (getButton_range _ _ _ Hrun) as Hb.
  assert (Hs : 0 <= b < NUM_KEYS) by (unfold NUM_KEYS; lia).
  destruct (getButton_port _ _ _ Hrun) as [HP _].
  rewrite HP, (lit_pad_bits _ _ Hs), (lit_pad_rest _ _ Hs).
  auto using led_of_power.
Qed.

Lemma getButton_lights_the_pressed_pad_witness :
  exists w', getButton (mkWorld 255 [] (fun _ => 0) 0 [None; Some PAD4]) = Done (3, w') /\
             Z.land (P1OUT w') LED_BITS = 2 ^ (3 + 1).
Proof.
  assert (Hrun : exists w', getButton (mkWorld 255 [] (fun _ => 0) 0 [None; Some PAD4])
                            = Done (3, w')).
  { eexists. vm_compute. reflexivity. }
  destruct Hrun as (w' & Hrun). exists w'. split; [exact Hrun|].
  exact (proj1 (getButton_lights_the_pressed_pad _ _ _ Hrun)).
Defined.

(** ** The port after a playback *)

Lemma ledMask_within_LED_BITS (i : nat) m :
  ledMask !! i = Some m -> Z.land m LED_BITS = m.
Proof.
  destruct i as [|[|[|[|[|i]]]]]; cbn; intros [= <-]; reflexivity.
Qed.

Lemma leds_cleared_no_led p : Z.land (leds_cleared p) LED_BITS = 0.
Proof.
  port_bits.
  destruct (n <? 8), (Z.testbit p n), ((1 <=? n) && (n <=? 5)); reflexivity.
Qed.

Lemma playLoop_port_inv : forall n playLED sequence level w u w' p,
  P1OUT w = leds_cleared p ->
  playLoop n playLED sequence level w = Done (u, w') ->
  P1OUT w' = P1OUT w.
Proof.
  induction n as [|n IH]; intros playLED sequence level w u w' p HP Hrun.
  - cbn in Hrun. injection Hrun as _ <-. reflexivity.
  - cbn [playLoop] in Hrun.
    apply bind_inv in Hrun as (s & w1 & Hg & Hrun).
    apply array_get_inv in Hg as (-> & _ & Hs).
    apply bind_inv in Hrun as (m & w1 & Hg & Hrun).
    apply array_get_inv in Hg as (-> & _ & Hm).
    run_in Hrun.
    apply bind_inv in Hrun as (s' & w1 & Hg & Hrun).
    apply array_get_inv in Hg as (-> & _ & Hs').
    assert (s' = s) as -> by congruence.
    apply bind_inv in Hrun as (m' & w1 & Hg & Hrun).
    apply array_get_inv in Hg as (-> & _ & Hm').
    assert (m' = m) as -> by congruence.
    run_in Hrun.
    apply (IH _ _ _ _ _ _ p) in Hrun.
    + cbn [P1OUT] in Hrun. rewrite Hrun, HP. unfold leds_cleared.
      apply blink_restores. eapply ledMask_within_LED_BITS, Hm.
    + cbn [P1OUT]. rewrite HP. unfold leds_cleared.
      apply blink_restores. eapply ledMask_within_LED_BITS, Hm.
Qed.

(** X6. Whenever playSequence returns, the five pad LEDs are off and
    the three other bits of port 1 are as they were before the call:
    every LED it lights it clears again. *)
Theorem playSequence_leaves_leds_off
    (sequence : list Z) (d st : Z) (w : World) (r : list Z * Z * Z) (w' : World)
    (Hrun : playSequence sequence d st w = Done (r, w')) :
  P1OUT w' = leds_cleared (P1OUT w) /\
  Z.land (P1OUT w') LED_BITS = 0.
Proof.
  assert (HP : P1OUT w' = leds_cleared (P1OUT w)).
  { unfold playSequence in Hrun. run_in Hrun.
    apply bind_inv in Hrun as (sq & w1 & Hset & Hrun).
    unfold array_set in Hset.
    destruct ((0 <=? d) && (d <? Z.of_nat (length sequence))); [|discriminate].
    injection Hset as <- <-.
    apply bind_inv in Hrun as (u & w1 & Hloop & Hrun).
    apply (playLoop_port_inv _ _ _ _ _ _ _ (P1OUT w)) in Hloop; [|reflexivity].
    cbn in Hrun. injection Hrun as _ <-. exact Hloop. }
  split; [exact HP|]. rewrite HP. apply leds_cleared_no_led.
Qed.

Lemma playSequence_leaves_leds_off_witness :
  exists r w',
    playSequence ([2; 4; 1] ++ replicate 61 0) 2 PLAYSEQ
                 (mkWorld 255 [] (fun _ => 13) 0 []) = Done (r, w') /\
    P1OUT w' = 193.
Proof.
  assert (Hrun : exists r w',
             playSequence ([2; 4; 1] ++ replicate 61 0) 2 PLAYSEQ
                          (mkWorld 255 [] (fun _ => 13) 0 []) = Done (r, w')).
  { eexists. eexists. vm_compute. reflexivity. }
  destruct Hrun as (r & w' & Hrun). exists r, w'. split; [exact Hrun|].
  exact (proj1 (playSequence_leaves_leds_off _ _ _ _ _ _ Hrun)).
Defined.

(** ** The touches shown while checking *)

Lemma displayButton_echo b w :
  0 <= b <= 4 ->
  exists w', displayButton b w = Done (tt, w') /\ same_inputs w w' /\ echoes w w' [b].
Proof.
  intros Hb.
  assert (Hc : b = 0 \/ b = 1 \/ b = 2 \/ b = 3 \/ b = 4) by lia.
  destruct Hc as [->|[->|[->|[->| ->]]]]; unfold displayButton; cbn;
    (eexists; split; [reflexivity|]; split; [repeat split | echo_events]).
Qed.

Lemma checkLoop_step_echo n cb sequence c w b rest :
  next_press (polls w) = Some (b, rest) ->
  exists w1,
    polls w1 = rest /\ echoes w w1 [b] /\
    checkLoop (S n) cb sequence c w
    = bind (array_get sequence cb)
           (fun s => if negb (b =? s) then ret 0
                     else checkLoop n (cb + 1) sequence c) w1.
Proof.
  intros Hnext. cbn [checkLoop]. run.
  match goal with |- context [getButton ?w0] =>
    pose proof (getButton_spec w0) as Hg; cbn [polls rand_src rand_calls] in Hg;
    assert (He0 : echoes w w0 []) by echo_events
  end.
  rewrite Hnext in Hg. destruct Hg as (w1 & Hg & Hp1 & _).
  destruct (getButton_port _ _ _ Hg) as [_ He1]. rewrite Hg.
  destruct (displayButton_echo b w1 (next_press_range _ _ _ Hnext))
    as (w2 & -> & (_ & _ & Hp2) & He2).
  match goal with |- context [array_get sequence cb ?w3] =>
    exists w3; assert (He3 : echoes w2 w3 []) by echo_events
  end.
  split; [cbn [polls]; congruence|]. split; [|reflexivity].
  exact (echoes_trans _ _ _ _ _ He0
           (echoes_trans _ _ _ _ _ He1 (echoes_trans _ _ _ _ _ He2 He3))).
Qed.

Lemma checkLoop_echo : forall n cb sequence c w r w',
  checkLoop n cb sequence c w = Done (r, w') ->
  exists k : nat,
    (k <= n)%nat /\ (0 < n -> 0 < k)%nat /\
    polls w' = drop_presses k (polls w) /\
    length (take k (presses (polls w))) = k /\
    echoes w w' (take k (presses (polls w))).
Proof.
  induction n as [|n IH]; intros cb sequence c w r w' Hrun.
  - cbn in Hrun. injection Hrun as _ <-. exists 0%nat.
    repeat split; try lia. apply echoes_refl.
  - pose proof (checkLoop_step n cb sequence c w) as Hstep.
    destruct (next_press (polls w)) as [[b rest]|] eqn:Hnext; [|congruence].
    clear Hstep.
    destruct (checkLoop_step_echo n cb sequence c w b rest Hnext)
      as (w1 & Hp1 & He1 & Heq).
    rewrite Heq in Hrun.
    apply bind_inv in Hrun as (s & w2 & Hget & Hrun).
    apply array_get_inv in Hget as (-> & _ & _).
    assert (Hpr : presses (polls w) = b :: presses rest).
    { rewrite (presses_next_press (polls w)), Hnext. reflexivity. }
    destruct (negb (b =? s)).
    + cbn in Hrun. injection Hrun as _ <-. exists 1%nat.
      rewrite (drop_presses_S _ _ _ _ Hnext), Hpr.
      split; [lia|]. split; [lia|]. split; [exact Hp1|].
      split; [reflexivity | exact He1].
    + apply IH in Hrun as (k & Hk & _ & Hp' & Hlen & He').
      exists (S k). rewrite (drop_presses_S _ _ _ _ Hnext), Hpr, <- Hp1.
      split; [lia|]. split; [lia|]. split; [exact Hp'|].
      split; [cbn [take length]; rewrite Hlen; reflexivity|].
      exact (echoes_trans _ _ _ [b] _ He1 He').
Qed.

(** X7. Whenever checkSequence returns it has taken between 1 and
    level+1 touches, and the labels it drew on the LCD are exactly the
    labels of these touches, once each and in the order touched. *)
Theorem checkSequence_shows_every_touch
    (sequence : list Z) (d st : Z) (w : World) (r : list Z * Z * Z) (w' : World)
    (Hd : 0 <= d)
    (Hrun : checkSequence sequence d st w = Done (r, w')) :
  exists k : nat,
    (1 <= k <= Z.to_nat (d + 1))%nat /\
    polls w' = drop_presses k (polls w) /\
    length (take k (presses (polls w))) = k /\
    echoes w w' (take k (presses (polls w))).
Proof.
  unfold checkSequence in Hrun. run_in Hrun.
  match type of Hrun with context [checkLoop ?n ?cb ?s ?c ?w0] =>
    destruct (checkLoop n cb s c w0) as [[res w1]| |] eqn:Hloop; try discriminate;
    assert (He0 : echoes w w0 []) by echo_events
  end.
  apply checkLoop_echo in Hloop as (k & Hk & Hpos & Hp & Hlen & He).
  cbn [polls] in Hp, Hlen, He.
  assert (Hend : polls w' = polls w1 /\ echoes w1 w' []).
  { destruct (negb (res =? 0)).
    - run_in Hrun. destruct (d <? MAX_SEQ_LENGTH);
        injection Hrun as _ <-; (split; [reflexivity | echo_events]).
    - injection Hrun as _ <-. split; [reflexivity | apply echoes_refl]. }
  destruct Hend as [Hp' He'].
  exists k. split; [lia|]. split; [congruence|]. split; [exact Hlen|].
  pose proof (echoes_trans _ _ _ _ _ He0 (echoes_trans _ _ _ _ _ He He')) as Hall.
  rewrite app_nil_r in Hall. exact Hall.
Qed.

Lemma checkSequence_shows_every_touch_witness :
  exists r w',
    checkSequence [0; 1; 2] 2 CHECSEQ
                  (quiet_world [Some PAD1; None; Some PAD4; Some PAD3]) = Done (r, w') /\
    exists k : nat,
      polls w' = drop_presses k [Some PAD1; None; Some PAD4; Some PAD3] /\
      echoes (quiet_world [Some PAD1; None; Some PAD4; Some PAD3]) w'
             (take k [0; 3; 2]).
Proof.
  assert (Hrun : exists r w',
             checkSequence [0; 1; 2] 2 CHECSEQ
               (quiet_world [Some PAD1; None; Some PAD4; Some PAD3]) = Done (r, w')).
  { eexists. eexists. vm_compute. reflexivity. }
  destruct Hrun as (r & w' & Hrun). exists r, w'. split; [exact Hrun|].
  destruct (checkSequence_shows_every_touch [0; 1; 2] 2 CHECSEQ _ r w'
              ltac:(lia) Hrun)
    as (k & _ & Hp & _ & He).
  exists k. split; [exact Hp | exact He].
Defined.

(** ** Waiting for a touch that does not come *)

Lemma presses_nil_next_press ps : presses ps = [] -> next_press ps = None.
Proof.
  rewrite (presses_next_press ps).
  destruct (next_press ps) as [[b rest]|]; [discriminate | reflexivity].
Qed.

Lemma checkLoop_pending : forall (m n k : nat) sequence c w,
  (m < n)%nat ->
  length (presses (polls w)) = m ->
  (forall j s, presses (polls w) !! j = Some s -> sequence !! (k + j)%nat = Some s) ->
  checkLoop n (Z.of_nat k) sequence c w = Pending.
Proof.
  induction m as [|m IH]; intros n k sequence c w Hn Hlen Hmatch;
    (destruct n as [|n]; [lia|]);
    pose proof (checkLoop_step n (Z.of_nat k) sequence c w) as Hstep.
  - apply nil_length_inv in Hlen.
    rewrite (presses_nil_next_press _ Hlen) in Hstep. exact Hstep.
  - destruct (presses (polls w)) as [|b bs] eqn:Hpr; [discriminate|].
    assert (Hb0 : presses (polls w) !! 0%nat = Some b) by (rewrite Hpr; reflexivity).
    destruct (presses_head _ _ Hb0) as (rest & Hnp & Hpr').
    rewrite Hnp in Hstep. destruct Hstep as (w1 & Hp1 & _ & _ & ->).
    assert (Hs : sequence !! k = Some b).
    { rewrite <- (Nat.add_0_r k). apply Hmatch. reflexivity. }
    cbn [bind]. rewrite (array_get_Some _ _ _ _ Hs).
    rewrite Z.eqb_refl. cbn [negb].
    replace (Z.of_nat k + 1) with (Z.of_nat (S k)) by lia.
    assert (Hbs : presses (polls w1) = bs) by congruence.
    apply (IH n (S k)); [lia| |].
    + rewrite Hbs. cbn in Hlen. lia.
    + intros j s Hj. replace (S k + j)%nat with (k + S j)%nat by lia.
      apply Hmatch. rewrite Hbs in Hj. exact Hj.
Qed.

(** X8. checkSequence has no timeout: when the touches end before
    level+1 of them were made, and every touch made was right, the call
    is still waiting at the end of the history; it neither passes nor
    fails the round. *)
Theorem checkSequence_waits_for_missing_touches
    (sequence : list Z) (d st : Z) (w : World)
    (Hd : 0 <= d)
    (Hfew : (length (presses (polls w)) <= Z.to_nat d)%nat)
    (Hmatch : forall j s, presses (polls w) !! j = Some s -> sequence !! j = Some s) :
  checkSequence sequence d st w = Pending.
Proof.
  unfold checkSequence. run.
  match goal with |- context [checkLoop ?n _ _ _ ?w0] =>
    pose proof (checkLoop_pending (length (presses (polls w))) n 0 sequence 1 w0
                  ltac:(lia) eq_refl Hmatch) as Hloop
  end.
  change (Z.of_nat 0) with 0 in Hloop. rewrite Hloop. reflexivity.
Qed.

Lemma checkSequence_waits_for_missing_touches_witness :
  checkSequence [0; 1; 2] 2 CHECSEQ (quiet_world [Some PAD1; None; Some PAD2; None])
  = Pending.
Proof.
  apply (checkSequence_waits_for_missing_touches [0; 1; 2] 2 CHECSEQ
           (quiet_world [Some PAD1; None; Some PAD2; None])).
  - lia.
  - cbn. lia.
  - intros [|[|j]] s; cbn; intros [= <-]; reflexivity.
Defined.

(** ** What holds after every turn *)

Lemma main_init_game_ok : game_ok main_init.
Proof.
  unfold game_ok, valid_state, main_init, MAX_SEQ_LENGTH. cbn.
  repeat split; try lia; auto; discriminate.
Qed.

Lemma main_iter_diff l w l' w' :
  main_iter l w = Done (l', w') ->
  diff l' = diff l \/ (state l = CHECSEQ /\ diff l' = diff l + 1 /\ diff l < MAX_SEQ_LENGTH).
Proof.
  intros Hrun.
  destruct (Z.eq_dec (state l) PLAYSEQ) as [Hp|Hp].
  { apply (main_iter_playseq_inv _ _ _ _ Hp) in Hrun. tauto. }
  destruct (Z.eq_dec (state l) CHECSEQ) as [Hc|Hc].
  { apply (main_iter_checseq_inv _ _ _ _ Hc) in Hrun as (_ & _ & _ & Hcase).
    destruct Hcase as [[_ ?]|[(_ & ? & ?)|(_ & ? & _)]]; auto. }
  apply (main_iter_frame _ _ _ _ Hp) in Hrun as (_ & Hd & _). auto.
Qed.

Lemma main_iter_game_ok l w l' w' :
  game_ok l -> main_iter l w = Done (l', w') -> game_ok l'.
Proof.
  intros (Hlen & Hd & Hv & Hnc & Hchk) Hrun.
  pose proof (main_iter_valid_state _ _ _ _ Hv Hrun) as Hv'.
  pose proof (main_iter_diff _ _ _ _ Hrun) as Hdiff.
  unfold game_ok.
  destruct (Z.eq_dec (state l) PLAYSEQ) as [Hp|Hp].
  { apply (main_iter_playseq_inv _ _ _ _ Hp) in Hrun
      as (Hin & Hst' & Hd' & Hseq & _).
    rewrite Hseq, length_insert, Hst', Hd'.
    rewrite Hlen in Hin.
    repeat split; try (assumption || (unfold MAX_SEQ_LENGTH in *; lia) || discriminate).
    rewrite <- Hst'. exact Hv'. }
  destruct (Z.eq_dec (state l) CHECSEQ) as [Hc|Hc].
  { apply (main_iter_checseq_inv _ _ _ _ Hc) in Hrun as (Hseq & _ & _ & Hcase).
    specialize (Hchk Hc). rewrite Hseq.
    destruct Hcase as [(Hst' & Hd')|[(Hst' & Hd' & _)|(_ & _ & Hge)]]; [| |lia];
      rewrite Hst', Hd';
      (repeat split; try (assumption || lia || discriminate));
      rewrite <- Hst'; exact Hv'. }
  pose proof (main_iter_frame _ _ _ _ Hp Hrun) as (Hseq & Hd' & _).
  rewrite Hseq, (Hd' Hc).
  assert (Hst' : state l' <> CONGRATS /\ state l' <> CHECSEQ).
  { destruct Hv as [Hw|[?|[?|[He|?]]]]; try contradiction.
    - pose proof (main_iter_welcome l w Hw) as Hm.
      destruct (after_start (polls w)); [|congruence].
      destruct Hm as (w1 & Hm & _). rewrite Hm in Hrun. injection Hrun as <- _.
      cbn. split; discriminate.
    - destruct (main_iter_message l w (or_introl He)) as (w1 & Hm & _).
      rewrite Hm in Hrun. injection Hrun as <- _. cbn. split; discriminate. }
  destruct Hst' as [Hnc' Hnk'].
  repeat split; try (assumption || lia); try (intros Habs; contradiction).
Qed.

Lemma main_loop_game_ok : forall n l w l' w',
  game_ok l -> main_loop n l w = Done (l', w') -> game_ok l'.
Proof.
  induction n as [|n IH]; intros l w l' w' Hok Hrun.
  - cbn in Hrun. injection Hrun as <- _. exact Hok.
  - cbn [main_loop] in Hrun.
    apply bind_inv in Hrun as (l1 & w1 & Hiter & Hrun).
    eapply IH; [|exact Hrun]. eapply main_iter_game_ok; eassumption.
Qed.

Lemma main_loop_diff_grows : forall n l w l' w',
  main_loop n l w = Done (l', w') -> diff l <= diff l'.
Proof.
  induction n as [|n IH]; intros l w l' w' Hrun.
  - cbn in Hrun. injection Hrun as <- _. lia.
  - cbn [main_loop] in Hrun.
    apply bind_inv in Hrun as (l1 & w1 & Hiter & Hrun).
    apply IH in Hrun. apply main_iter_diff in Hiter. lia.
Qed.

Lemma main_unfold n w l' w' :
  main n w = Done (l', w') ->
  exists w0, rand_src w0 = rand_src w /\ rand_calls w0 = rand_calls w /\
             polls w0 = polls w /\ main_loop n main_init w0 = Done (l', w').
Proof.
  unfold main, initSys, configTouchPadLEDs, configDisplay. run.
  intros Hrun. eexists. split; [|split; [|split; [|exact Hrun]]]; reflexivity.
Qed.



(** X10. The difficulty stays between 0 and 64 and never goes down:
    between any two points of a run from power-on it is unchanged or
    larger, and one turn changes it by at most one.  In particular it is
    never set back to 0 once a round was passed. *)
Theorem difficulty_is_bounded_and_never_decreases
    (n m : nat) (w : World) (l1 : Locals) (w1 : World) (l2 : Locals) (w2 : World)
    (Hrun1 : main n w = Done (l1, w1))
    (Hrun2 : main_loop m l1 w1 = Done (l2, w2)) :
  0 <= diff l1 /\ diff l1 <= diff l2 /\ diff l2 <= MAX_SEQ_LENGTH /\
  (m = 1%nat -> diff l2 <= diff l1 + 1).
Proof.
  apply main_unfold in Hrun1 as (w0 & _ & _ & _ & Hrun1).
  pose proof (main_loop_game_ok _ _ _ _ _ main_init_game_ok Hrun1) as Hok1.
  pose proof (main_loop_game_ok _ _ _ _ _ Hok1 Hrun2) as (_ & Hd2 & _).
  destruct Hok1 as (_ & Hd1 & _).
  pose proof (main_loop_diff_grows _ _ _ _ _ Hrun2) as Hle.
  repeat split; try lia.
  intros ->. cbn [main_loop] in Hrun2.
  apply bind_inv in Hrun2 as (l & w3 & Hiter & Hret).
  cbn in Hret. injection Hret as <- _.
  apply main_iter_diff in Hiter. lia.
Qed.

Lemma difficulty_is_bounded_and_never_decreases_witness :
  exists l1 w1 l2 w2,
    main 3 (quiet_world [Some PAD1; Some PAD1; Some PAD1; Some PAD2]) = Done (l1, w1) /\
    main_loop 2 l1 w1 = Done (l2, w2) /\
    diff l1 <= diff l2 /\ diff l2 <= MAX_SEQ_LENGTH.
Proof.
  assert (Hrun : exists l1 w1 l2 w2,
             main 3 (quiet_world [Some PAD1; Some PAD1; Some PAD1; Some PAD2]) = Done (l1, w1) /\
             main_loop 2 l1 w1 = Done (l2, w2)).
  { eexists. eexists. eexists. eexists. split; vm_compute; reflexivity. }
  destruct Hrun as (l1 & w1 & l2 & w2 & Hrun1 & Hrun2).
  exists l1, w1, l2, w2. split; [exact Hrun1|]. split; [exact Hrun2|].
  destruct (difficulty_is_bounded_and_never_decreases 3 2 _ l1 w1 l2 w2 Hrun1 Hrun2)
    as (_ & Hle & Hmax & _).
  split; assumption.
Defined.

(** ** After a lost round *)

Lemma main_iter_playseq_spec l w :
  state l = PLAYSEQ -> array_ok l ->
  0 <= diff l < MAX_SEQ_LENGTH ->
  0 <= rand_src w (rand_calls w) ->
  exists w',
    main_iter l w
    = Done (mkLocals CHECSEQ (button l)
              (<[Z.to_nat (diff l) := Z.rem (rand_src w (rand_calls w)) NUM_KEYS]>
                 (givenSeq l))
              (diff l), w') /\
    polls w' = polls w /\ rand_calls w' = S (rand_calls w).
Proof.
  intros Hst [Hlen Hall] Hd Hrand.
  destruct (playSequence_spec (givenSeq l) (diff l) PLAYSEQ w)
    as (w' & Hplay & _ & _ & Hc & _ & Hp & _).
  { rewrite Hlen. unfold MAX_SEQ_LENGTH in *. lia. }
  { intros j s _ Hs. exact (proj1 (Forall_lookup _ _) Hall j s Hs). }
  { exact Hrand. }
  exists w'. split; [|auto].
  unfold main_iter. rewrite Hst.
  change (PLAYSEQ =? WELCOME) with false.
  change (PLAYSEQ =? PLAYSEQ) with true. cbv iota. cbn [bind].
  rewrite Hplay. reflexivity.
Qed.

(** X11. A lost game is taken up where it was lost.  From the ERROR
    state at a difficulty d below 64, the error turn, the Welcome turn
    (left by the first start touch) and the next playSequence turn lead
    to CHECSEQ with the difficulty still d and the first d stored
    symbols as they were; only element d is drawn anew. *)
Theorem lost_game_resumes_at_its_level
    (l : Locals) (w : World) (pre rest : list (option Element))
    (Hst : state l = ERROR)
    (Hok : array_ok l)
    (Hd : 0 <= diff l < MAX_SEQ_LENGTH)
    (Hrand : 0 <= rand_src w (rand_calls w))
    (Hpolls : polls w = pre ++ Some PAD1 :: rest)
    (Hpre : Some PAD1 ∉ pre) :
  exists l' w',
    main_loop 3 l w = Done (l', w') /\
    state l' = CHECSEQ /\ diff l' = diff l /\
    givenSeq l' = <[Z.to_nat (diff l) := Z.rem (rand_src w (rand_calls w)) NUM_KEYS]>
                    (givenSeq l) /\
    take (Z.to_nat (diff l)) (givenSeq l') = take (Z.to_nat (diff l)) (givenSeq l) /\
    polls w' = rest.
Proof.
  destruct (main_iter_message l w (or_introl Hst)) as (w1 & Hturn1 & Hr1 & Hc1 & Hp1).
  pose proof (main_iter_welcome
                (mkLocals WELCOME (button l) (givenSeq l) (diff l)) w1 eq_refl) as Hturn2.
  rewrite Hp1, Hpolls, (after_start_split _ _ Hpre) in Hturn2.
  destruct Hturn2 as (w2 & Hturn2 & Hp2 & Hr2 & Hc2).
  cbn [givenSeq diff] in Hturn2.
  destruct (main_iter_playseq_spec (mkLocals PLAYSEQ X (givenSeq l) (diff l)) w2)
    as (w3 & Hturn3 & Hp3 & _); try assumption; try reflexivity.
  { rewrite Hr2, Hc2, Hr1, Hc1. exact Hrand. }
  cbn [givenSeq diff button] in Hturn3.
  rewrite Hr2, Hc2, Hr1, Hc1 in Hturn3.
  eexists. exists w3. split.
  - rewrite main_loop_S, (bind_Done _ _ _ _ _ Hturn1).
    rewrite main_loop_S, (bind_Done _ _ _ _ _ Hturn2).
    rewrite main_loop_S, (bind_Done _ _ _ _ _ Hturn3). reflexivity.
  - cbn [state diff givenSeq]. repeat split.
    + apply take_insert_ge. lia.
    + congruence.
Qed.

Lemma lost_game_resumes_at_its_level_witness :
  exists l' w',
    main_loop 3 lost_round (quiet_world [None; Some PAD1; Some PAD3]) = Done (l', w') /\
    state l' = CHECSEQ /\ diff l' = 2 /\
    take 2 (givenSeq l') = [2; 4] /\
    polls w' = [Some PAD3].
Proof.
  destruct (lost_game_resumes_at_its_level lost_round
              (quiet_world [None; Some PAD1; Some PAD3]) [None] [Some PAD3])
    as (l' & w' & Hrun & Hst & Hd & _ & Htake & Hp).
  - reflexivity.
  - split; [reflexivity|].
    unfold lost_round. cbn [givenSeq]. apply Forall_app. split.
    + repeat constructor; unfold NUM_KEYS; lia.
    + apply Forall_replicate. unfold NUM_KEYS. lia.
  - cbn. unfold MAX_SEQ_LENGTH. lia.
  - cbn. lia.
  - reflexivity.
  - rewrite not_elem_of_cons. split; [discriminate | apply not_elem_of_nil].
  - exists l', w'. split; [exact Hrun|]. split; [exact Hst|].
    split; [exact Hd|]. split; [exact Htake | exact Hp].
Defined.

(** ** Rounds that can be won, and the array along the way *)

(** X12. Up to 64 rounds can be won in a row: for any source of
    non-negative values and any N up to 64 there are touches, computed
    from the source, with which N rounds in a row pass their check,
    leaving difficulty N, the state PLAYSEQ and no touch unused. *)
Theorem perfect_player_wins_rounds
    (N : nat) (p : Z) (tr : list event) (rs : nat -> Z) (rc : nat)
    (HN : (N <= Z.to_nat MAX_SEQ_LENGTH)%nat)
    (Hrand : forall k, 0 <= rs k) :
  exists l' w',
    correct_rounds N first_round (mkWorld p tr rs rc (winning_polls rs rc N)) l' w' /\
    state l' = PLAYSEQ /\ diff l' = Z.of_nat N /\ polls w' = [].
Proof.
  destruct (winning_rounds N first_round
              (mkWorld p tr rs rc (winning_polls rs rc N)) [])
    as (l' & w' & Hrounds & Hst & Hp).
  - exact HN.
  - reflexivity.
  - reflexivity.
  - exact main_init_array_ok.
  - exact Hrand.
  - cbn [polls rand_src rand_calls]. rewrite app_nil_r. reflexivity.
  - exists l', w'. split; [exact Hrounds|]. split; [exact Hst|]. split; [|exact Hp].
    apply (correct_rounds_inv N first_round _ l' w' eq_refl
             (proj1 main_init_array_ok) Hrounds).
Qed.

Lemma perfect_player_wins_rounds_witness :
  exists l' w',
    correct_rounds 5 first_round
      (mkWorld 0 [] (fun k => 7 * Z.of_nat k + 3) 0
               (winning_polls (fun k => 7 * Z.of_nat k + 3) 0 5)) l' w' /\
    state l' = PLAYSEQ /\ diff l' = 5 /\ polls w' = [].
Proof.
  apply (perfect_player_wins_rounds 5 0 [] (fun k => 7 * Z.of_nat k + 3) 0).
  - unfold MAX_SEQ_LENGTH. lia.
  - intros k. lia.
Defined.

(** X13. As long as rand returns non-negative values, after any number
    of turns from power-on the array still has its 64 elements and every
    element is a pad index from 0 to 4, so every index into ledMask taken
    from it is in range. *)
Theorem stored_symbols_stay_valid
    (n : nat) (w : World) (l' : Locals) (w' : World)
    (Hrand : forall k, 0 <= rand_src w k)
    (Hrun : main n w = Done (l', w')) :
  length (givenSeq l') = 64%nat /\
  (forall j s, givenSeq l' !! j = Some s ->
               0 <= s <= 4 /\ exists m, ledMask !! Z.to_nat s = Some m).
Proof.
  apply main_unfold in Hrun as (w0 & Hsrc & _ & _ & Hrun).
  assert (Hrand0 : forall k, 0 <= rand_src w0 k)
    by (intros k; rewrite Hsrc; apply Hrand).
  destruct (main_loop_array_ok _ _ _ _ _ Hrand0 main_init_array_ok Hrun)
    as [Hlen Hall].
  split; [exact Hlen|].
  intros j s Hs. pose proof (proj1 (Forall_lookup _ _) Hall j s Hs) as Hr.
  split; [unfold NUM_KEYS in Hr; lia|].
  apply lookup_lt_is_Some. cbn. unfold NUM_KEYS in Hr. lia.
Qed.

Lemma stored_symbols_stay_valid_witness :
  exists l' w',
    main 2 (quiet_world [Some PAD1]) = Done (l', w') /\
    length (givenSeq l') = 64%nat.
Proof.
  assert (Hrun : exists l' w', main 2 (quiet_world [Some PAD1]) = Done (l', w')).
  { eexists. eexists. vm_compute. reflexivity. }
  destruct Hrun as (l' & w' & Hrun). exists l', w'. split; [exact Hrun|].
  apply (proj1 (stored_symbols_stay_valid 2 (quiet_world [Some PAD1]) l' w'
                  ltac:(intros k; cbn; lia) Hrun)).
Defined.

(** ** The verdict of a check *)

(** X14. A round whose level+1 touches are all right is passed: below
    level 64 checkSequence returns with the difficulty raised by exactly
    one and the state PLAYSEQ, at level 64 or above with the difficulty
    as it was and the state CONGRATS; either way it has taken exactly
    level+1 touches and has not called rand. *)
Theorem checkSequence_passes_a_right_round
    (sequence : list Z) (d st : Z) (w : World)
    (Hd : 0 <= d)
    (Hright : forall j, (j <= Z.to_nat d)%nat ->
                exists s, presses (polls w) !! j = Some s /\ sequence !! j = Some s) :
  exists w',
    checkSequence sequence d st w
    = Done ((sequence,
             (if d <? MAX_SEQ_LENGTH then d + 1 else d),
             (if d <? MAX_SEQ_LENGTH then PLAYSEQ else CONGRATS)), w') /\
    polls w' = drop_presses (S (Z.to_nat d)) (polls w) /\
    rand_src w' = rand_src w /\ rand_calls w' = rand_calls w.
Proof. exact (checkSequence_all_correct sequence d st w Hd Hright). Qed.

Lemma checkSequence_passes_a_right_round_witness :
  exists w',
    checkSequence [0; 3; 2] 1 CHECSEQ (quiet_world [Some PAD1; None; Some PAD4; Some PAD3])
    = Done (([0; 3; 2], 2, PLAYSEQ), w') /\
    polls w' = [Some PAD3].
Proof.
  destruct (checkSequence_passes_a_right_round [0; 3; 2] 1 CHECSEQ
              (quiet_world [Some PAD1; None; Some PAD4; Some PAD3]))
    as (w' & Hrun & Hp & _).
  - lia.
  - intros [|[|j]] Hj; [exists 0 | exists 3 | lia]; split; reflexivity.
  - exists w'. split; [exact Hrun | exact Hp].
Defined.

Lemma checkLoop_zero_inv : forall (n k : nat) sequence w w',
  checkLoop n (Z.of_nat k) sequence 1 w = Done (0, w') ->
  exists (i : nat) b s,
    (i < n)%nat /\
    (forall j, (j < i)%nat -> presses (polls w) !! j = sequence !! (k + j)%nat) /\
    presses (polls w) !! i = Some b /\
    sequence !! (k + i)%nat = Some s /\
    b <> s.
Proof.
  induction n as [|n IH]; intros k sequence w w' Hrun.
  - cbn in Hrun. discriminate.
  - pose proof (checkLoop_step n (Z.of_nat k) sequence 1 w) as Hstep.
    destruct (next_press (polls w)) as [[b rest]|] eqn:Hnext; [|congruence].
    destruct Hstep as (w1 & Hp1 & _ & _ & Heq). rewrite Heq in Hrun.
    apply bind_inv in Hrun as (s & w2 & Hget & Hrun).
    apply array_get_inv in Hget as (-> & _ & Hs). rewrite Nat2Z.id in Hs.
    assert (Hpr : presses (polls w) = b :: presses rest).
    { rewrite (presses_next_press (polls w)), Hnext. reflexivity. }
    destruct (Z.eqb_spec b s) as [->|Hne]; cbn [negb] in Hrun.
    + replace (Z.of_nat k + 1) with (Z.of_nat (S k)) in Hrun by lia.
      apply IH in Hrun as (i & b' & s' & Hi & Hpre & Hb' & Hs' & Hne').
      rewrite Hp1 in Hpre, Hb'.
      exists (S i), b', s'. split; [lia|]. rewrite Hpr.
      split; [|split; [exact Hb'|split; [|exact Hne']]].
      * intros [|j] Hj.
        -- rewrite Nat.add_0_r, Hs. reflexivity.
        -- replace (k + S j)%nat with (S k + j)%nat by lia.
           apply (Hpre j). lia.
      * rewrite <- Hs'. f_equal. lia.
    + exists 0%nat, b, s. rewrite Hpr, Nat.add_0_r.
      split; [lia|]. split; [intros j Hj; lia|]. auto.
Qed.

(** X15. checkSequence reports an error only for a wrong touch: when it
    returns with the state ERROR, some touch within the round differed
    from the stored symbol of its position, all touches before it having
    been right; the difficulty and the array come back unchanged. *)
Theorem checkSequence_error_only_on_mismatch
    (sequence : list Z) (d st : Z) (w : World) (sq' : list Z) (d' : Z) (w' : World)
    (Hrun : checkSequence sequence d st w = Done ((sq', d', ERROR), w')) :
  sq' = sequence /\ d' = d /\
  exists (i : nat) b s,
    Z.of_nat i <= d /\
    (forall j, (j < i)%nat -> presses (polls w) !! j = sequence !! j) /\
    presses (polls w) !! i = Some b /\
    sequence !! i = Some s /\
    b <> s.
Proof.
  pose proof (checkSequence_inv _ _ _ _ _ _ _ _ Hrun) as (Hsq & _ & _ & Hcase).
  assert (Hd' : d' = d).
  { destruct Hcase as [[_ ?]|[[? _]|[? _]]]; [assumption|discriminate..]. }
  split; [exact Hsq|]. split; [exact Hd'|].
  unfold checkSequence in Hrun. run_in Hrun.
  match type of Hrun with context [checkLoop ?n ?cb ?s ?c ?w0] =>
    destruct (checkLoop n cb s c w0) as [[res w1]| |] eqn:Hloop; try discriminate
  end.
  destruct (checkLoop_inv _ _ _ _ _ _ _ Hloop) as ([-> | ->] & _).
  - change (negb (1 =? 0)) with true in Hrun. cbv iota in Hrun. run_in Hrun.
    destruct (d <? MAX_SEQ_LENGTH); discriminate.
  - change 0 with (Z.of_nat 0) in Hloop at 1.
    apply checkLoop_zero_inv in Hloop as (i & b & s & Hi & Hpre & Hb & Hs & Hne).
    cbn [polls] in Hpre, Hb. exists i, b, s.
    split; [lia|]. auto.
Qed.

Lemma checkSequence_error_only_on_mismatch_witness :
  exists w',
    checkSequence [0; 1; 2] 2 CHECSEQ (quiet_world [Some PAD1; None; Some PAD4; Some PAD3])
    = Done (([0; 1; 2], 2, ERROR), w') /\
    exists (i : nat) b s,
      presses [Some PAD1; None; Some PAD4; Some PAD3] !! i = Some b /\
      [0; 1; 2] !! i = Some s /\ b <> s.
Proof.
  assert (Hrun : exists w',
             checkSequence [0; 1; 2] 2 CHECSEQ
               (quiet_world [Some PAD1; None; Some PAD4; Some PAD3])
             = Done (([0; 1; 2], 2, ERROR), w')).
  { eexists. vm_compute. reflexivity. }
  destruct Hrun as (w' & Hrun). exists w'. split; [exact Hrun|].
  destruct (checkSequence_error_only_on_mismatch _ _ _ _ _ _ _ Hrun)
    as (_ & _ & i & b & s & _ & _ & Hb & Hs & Hne).
  exists i, b, s. auto.
Defined.
